(** * The interactive viewer of mpr (gui/main.cpp)

    A shallow embedding of the frame loop of [gui/main.cpp]: the camera
    state and its pointer handlers, the reconciliation of the compiled
    shapes with the shapes of the script, the per-shape render loop and
    the save handler.

    Numbers.  The program computes with [float] (and, for [fmod], with
    [double]).  Here every number is a rational and every operation is
    exact: rounding, infinities and NaN are not modelled.  The results
    about the camera are therefore results about the arithmetic the
    handlers perform, read over the rationals. *)

From Stdlib Require Import QArith Qminmax Qabs Lqa ZArith Lia String Ascii.
From stdpp Require Import base option list sorting gmap sets strings.

Local Open Scope Q_scope.

(** ** Vectors and affine transforms (the part of Eigen the program uses) *)

Module Eigen.

(** [Eigen::Vector3f] *)
Record Vector3 : Type := vec3 { vx : Q; vy : Q; vz : Q }.

(** [Eigen::Matrix3f], by rows *)
Record Matrix3 : Type := mat3 { row0 : Vector3; row1 : Vector3; row2 : Vector3 }.

(** [Eigen::Affine3f]: a linear part and a translation *)
Record Affine3 : Type := affine { linear : Matrix3; translation : Vector3 }.

Definition vadd (a b : Vector3) : Vector3 :=
    vec3 (vx a + vx b) (vy a + vy b) (vz a + vz b).
Definition vsub (a b : Vector3) : Vector3 :=
    vec3 (vx a - vx b) (vy a - vy b) (vz a - vz b).
Definition dot (a b : Vector3) : Q :=
    vx a * vx b + vy a * vy b + vz a * vz b.

Definition col0 (m : Matrix3) := vec3 (vx (row0 m)) (vx (row1 m)) (vx (row2 m)).
Definition col1 (m : Matrix3) := vec3 (vy (row0 m)) (vy (row1 m)) (vy (row2 m)).
Definition col2 (m : Matrix3) := vec3 (vz (row0 m)) (vz (row1 m)) (vz (row2 m)).

Definition mulv (m : Matrix3) (v : Vector3) : Vector3 :=
    vec3 (dot (row0 m) v) (dot (row1 m) v) (dot (row2 m) v).
Definition rowmul (r : Vector3) (m : Matrix3) : Vector3 :=
    vec3 (dot r (col0 m)) (dot r (col1 m)) (dot r (col2 m)).
Definition mmul (a b : Matrix3) : Matrix3 :=
    mat3 (rowmul (row0 a) b) (rowmul (row1 a) b) (rowmul (row2 a) b).

Definition Identity3 : Matrix3 :=
    mat3 (vec3 1 0 0) (vec3 0 1 0) (vec3 0 0 1).
Definition asDiagonal (v : Vector3) : Matrix3 :=
    mat3 (vec3 (vx v) 0 0) (vec3 0 (vy v) 0) (vec3 0 0 (vz v)).

Definition UnitX : Vector3 := vec3 1 0 0.
Definition UnitZ : Vector3 := vec3 0 0 1.

(** [Affine3f::Identity()] *)
Definition Identity : Affine3 := affine Identity3 (vec3 0 0 0).

(** [t.translate(v)]: [t = t * Translation(v)] *)
Definition translate (t : Affine3) (v : Vector3) : Affine3 :=
    affine (linear t) (vadd (translation t) (mulv (linear t) v)).

(** [t.scale(s)] with a scalar: [t = t * Scaling(s)] *)
Definition scale (t : Affine3) (s : Q) : Affine3 :=
    affine (mmul (linear t) (asDiagonal (vec3 s s s))) (translation t).

(** [t.scale(v)] with a vector: [t = t * v.asDiagonal()] *)
Definition scalev (t : Affine3) (v : Vector3) : Affine3 :=
    affine (mmul (linear t) (asDiagonal v)) (translation t).

(** [AngleAxisf(angle, axis).toRotationMatrix()], from the cosine and the
      sine of the angle *)
Definition toRotationMatrix (c s : Q) (axis : Vector3) : Matrix3 :=
    let sin_axis := vec3 (s * vx axis) (s * vy axis) (s * vz axis) in
    let cos1_axis := vec3 ((1 - c) * vx axis) ((1 - c) * vy axis) ((1 - c) * vz axis) in
    let t01 := vx cos1_axis * vy axis in
    let t02 := vx cos1_axis * vz axis in
    let t12 := vy cos1_axis * vz axis in
    mat3 (vec3 (vx cos1_axis * vx axis + c) (t01 - vz sin_axis) (t02 + vy sin_axis))
         (vec3 (t01 + vz sin_axis) (vy cos1_axis * vy axis + c) (t12 - vx sin_axis))
         (vec3 (t02 - vy sin_axis) (t12 + vx sin_axis) (vz cos1_axis * vz axis + c)).

(** [t.rotate(r)]: [t = t * r] *)
Definition rotate (t : Affine3) (r : Matrix3) : Affine3 :=
    affine (mmul (linear t) r) (translation t).

(** [a * b] on transforms *)
Definition compose (a b : Affine3) : Affine3 :=
    affine (mmul (linear a) (linear b))
           (vadd (mulv (linear a) (translation b)) (translation a)).

(** [t * v] on a point *)
Definition apply (t : Affine3) (v : Vector3) : Vector3 :=
    vadd (mulv (linear t) v) (translation t).

Definition det (m : Matrix3) : Q :=
    let '(mat3 (vec3 a b c) (vec3 d e f) (vec3 g h i)) := m in
    a * (e * i - f * h) - b * (d * i - f * g) + c * (d * h - e * g).

(** the inverse of a 3x3 matrix by cofactors *)
Definition minverse (m : Matrix3) : Matrix3 :=
    let '(mat3 (vec3 a b c) (vec3 d e f) (vec3 g h i)) := m in
    let k := / det m in
    mat3 (vec3 (k * (e * i - f * h)) (k * (c * h - b * i)) (k * (b * f - c * e)))
         (vec3 (k * (f * g - d * i)) (k * (a * i - c * g)) (k * (c * d - a * f)))
         (vec3 (k * (d * h - e * g)) (k * (b * g - a * h)) (k * (a * e - b * d))).

(** [t.inverse()] *)
Definition inverse (t : Affine3) : Affine3 :=
    let li := minverse (linear t) in
    affine li (vsub (vec3 0 0 0) (mulv li (translation t))).

(** componentwise equality of rationals *)
Definition veq (a b : Vector3) : Prop :=
    vx a == vx b /\ vy a == vy b /\ vz a == vz b.

Definition veqb (a b : Vector3) : bool :=
    Qeq_bool (vx a) (vx b) && Qeq_bool (vy a) (vy b) && Qeq_bool (vz a) (vz b).

End Eigen.

(** ** The camera: view state, matrices and pointer handlers *)

Module View.
Import Eigen.

(** [M_PI] is a [double] constant, hence a rational number. *)
Definition M_PI : Q := 884279719003555 # 281474976710656.

(** truncation towards zero *)
Definition trunc (q : Q) : Z := Z.quot (Qnum q) (Zpos (Qden q)).

(** C's [fmod]: [x - n * y] with [n] the quotient [x / y] truncated
      towards zero; the result has the sign of [x]. *)
Definition fmod (x y : Q) : Q := x - inject_Z (trunc (x / y)) * y.

Definition fmax (a b : Q) : Q := Qmax a b.
Definition fmin (a b : Q) : Q := Qmin a b.

(** [ImVec2] *)
Record ImVec2 : Type := imvec2 { x : Q; y : Q }.

(** The fields of [ImGuiIO] and the answers of [ImGui::IsMouseDragging]
      and [ImGui::GetMouseDragDelta] that a frame reads. *)
Record ImGuiIO : Type := {
    DisplaySize : ImVec2;
    MousePos : ImVec2;
    MouseWheel : Q;
    WantCaptureMouse : bool;
    IsMouseDragging0 : bool;
    GetMouseDragDelta0 : ImVec2;
    IsMouseDragging1 : bool;
    GetMouseDragDelta1 : ImVec2
  }.

(** The variables of [main] that hold the view, with the two matrices
      [update_mats] packs them into. *)
Record Camera : Type := {
    view_center : Vector3;
    view_scale : Q;
    view_pitch : Q;
    view_yaw : Q;
    model : Affine3;
    view : Affine3
  }.

Section Handlers.
(** [cosf], [sinf] and [powf] of the C library *)
Variables (cosf sinf : Q -> Q) (powf : Q -> Q -> Q).

Definition AngleAxis (angle : Q) (axis : Vector3) : Matrix3 :=
      toRotationMatrix (cosf angle) (sinf angle) axis.

(** the lambda [update_mats] *)
Definition update_mats (io : ImGuiIO) (cam : Camera) : Camera :=
      let m := Identity in
      let m := translate m (view_center cam) in
      let m := scale m (view_scale cam) in
      let m := rotate m (AngleAxis (view_yaw cam) UnitZ) in
      let m := rotate m (AngleAxis (view_pitch cam) UnitX) in
      let v := Identity in
      let s := 2 / fmax (x (DisplaySize io)) (y (DisplaySize io)) in
      let v := scalev v (vec3 s (- s) 1) in
      let v := translate v (vec3 (- x (DisplaySize io) / 2) (- y (DisplaySize io) / 2) 0) in
      {| view_center := view_center cam; view_scale := view_scale cam;
         view_pitch := view_pitch cam; view_yaw := view_yaw cam;
         model := m; view := v |}.

(** the initial values of the view variables, and the first
        [update_mats()] *)
Definition initial_view : Camera :=
      {| view_center := vec3 0 0 0; view_scale := 2; view_pitch := 0; view_yaw := 0;
         model := Identity; view := Identity |}.
Definition initial_camera (io : ImGuiIO) : Camera := update_mats io initial_view.

(** [model * view * p], which the handlers call the position of the
        screen point [p] in world coordinates *)
Definition worldOf (cam : Camera) (p : Vector3) : Vector3 :=
      apply (compose (model cam) (view cam)) p.

Definition mouse_of (io : ImGuiIO) : Vector3 :=
      vec3 (x (MousePos io)) (y (MousePos io)) 0.

(** the body of [if (ImGui::IsMouseDragging(0))] *)
Definition pan (io : ImGuiIO) (cam : Camera) : Camera :=
      let mouse := mouse_of io in
      let d := GetMouseDragDelta0 io in
      let drag := vec3 (x d) (y d) 0 in
      let center :=
        vadd (view_center cam)
             (vsub (apply (compose (model cam) (view cam)) (vsub mouse drag))
                   (apply (compose (model cam) (view cam)) mouse)) in
      update_mats io
        {| view_center := center; view_scale := view_scale cam;
           view_pitch := view_pitch cam; view_yaw := view_yaw cam;
           model := model cam; view := view cam |}.

(** the body of [if (ImGui::IsMouseDragging(1))] *)
Definition rotate_view (io : ImGuiIO) (cam : Camera) : Camera :=
      let d := GetMouseDragDelta1 io in
      let yaw := view_yaw cam - x d / 100 in
      let pitch := view_pitch cam - y d / 100 in
      let pitch := fmax (- M_PI / 2) pitch in
      let pitch := fmin (M_PI / 2) pitch in
      let yaw := fmod yaw (2 * M_PI) in
      update_mats io
        {| view_center := view_center cam; view_scale := view_scale cam;
           view_pitch := pitch; view_yaw := yaw;
           model := model cam; view := view cam |}.

(** the body of [if (scroll)] *)
Definition zoom (io : ImGuiIO) (cam : Camera) : Camera :=
      let mouse := mouse_of io in
      let scroll := MouseWheel io in
      let start := apply (compose (model cam) (view cam)) mouse in
      let cam :=
        update_mats io
          {| view_center := view_center cam;
             view_scale := view_scale cam * powf (101 # 100) scroll;
             view_pitch := view_pitch cam; view_yaw := view_yaw cam;
             model := model cam; view := view cam |} in
      let end_ := apply (compose (model cam) (view cam)) mouse in
      update_mats io
        {| view_center := vsub (view_center cam) (vsub end_ start);
           view_scale := view_scale cam;
           view_pitch := view_pitch cam; view_yaw := view_yaw cam;
           model := model cam; view := view cam |}.

(** [io.MouseWheel = 0.0f] *)
Definition reset_wheel (io : ImGuiIO) : ImGuiIO :=
      {| DisplaySize := DisplaySize io; MousePos := MousePos io; MouseWheel := 0;
         WantCaptureMouse := WantCaptureMouse io;
         IsMouseDragging0 := IsMouseDragging0 io;
         GetMouseDragDelta0 := GetMouseDragDelta0 io;
         IsMouseDragging1 := IsMouseDragging1 io;
         GetMouseDragDelta1 := GetMouseDragDelta1 io |}.

(** The view part of one iteration of the main loop: the
        [update_mats()] that follows [ImGui::NewFrame()], then the block
        guarded by [!io.WantCaptureMouse]. *)
Definition handle_mouse (io : ImGuiIO) (cam : Camera) : ImGuiIO * Camera :=
      let cam := update_mats io cam in
      if WantCaptureMouse io then (io, cam)
      else
        let cam := if IsMouseDragging0 io then pan io cam else cam in
        let cam := if IsMouseDragging1 io then rotate_view io cam else cam in
        if Qeq_bool (MouseWheel io) 0 then (io, cam)
        else (reset_wheel io, zoom io cam).

(** a drag of the second button by [d] pixels, as one frame sees it *)
Definition rotate_event (d : ImVec2) : ImGuiIO :=
      {| DisplaySize := imvec2 1280 720; MousePos := imvec2 0 0; MouseWheel := 0;
         WantCaptureMouse := false;
         IsMouseDragging0 := false; GetMouseDragDelta0 := imvec2 0 0;
         IsMouseDragging1 := true; GetMouseDragDelta1 := d |}.

(** the camera after a sequence of frames *)
Definition run_frames (ios : list ImGuiIO) (cam : Camera) : Camera :=
      fold_left (fun c io => snd (handle_mouse io c)) ios cam.

End Handlers.

(** where [fmod] leaves the yaw *)
Definition yaw_in_range (cam : Camera) : Prop :=
  - (2 * M_PI) < view_yaw cam /\ view_yaw cam < 2 * M_PI.

(** *** The spec's reading of "the world point under a screen point" *)

(** [inverse(model * view) * p] *)
Definition worldOf_spec (cam : Camera) (p : Vector3) : Vector3 :=
    apply (inverse (compose (model cam) (view cam))) p.

End View.

(** ** The compiled shapes and their reconciliation with the script *)

Module Scene.

(** [libfive::Tree::Id]: the address of a tree node *)
Abbreviation Id := N.

(** How a statement of the loop body ends: normally, or by an exception
    that nothing in [main] catches.  Either way the state reached is
    kept, to say what had been done when the exception left. *)
Inductive outcome (A : Type) : Type :=
| Done (a : A)
| Uncaught (a : A).
Arguments Done {A} a.
Arguments Uncaught {A} a.

Definition is_done {A : Type} (o : outcome A) : bool :=
  match o with Done _ => true | Uncaught _ => false end.

(** the order of the keys of a [std::map] *)
Definition key_le {V : Type} (a b : N * V) : Prop := (a.1 <= b.1)%N.

#[global] Instance key_le_dec {V : Type} : RelDecision (@key_le V).
Proof. intros a b. unfold key_le. apply N.le_dec. Defined.

Section Sync.
(** [libfive::Tree] and [mpr::Tape] *)
Variables (Tree Tape : Type).

(** The constructor [mpr::Tape(tree)].  Its only way to fail is to throw:
    [None] stands for that. *)
Variable compile : Tree -> option Tape.

(** [struct Shape] *)
Record Shape : Type := { tape : Tape; tree : Tree }.

(** What the block does to tapes: a constructor call, and the destruction
    of an erased entry. *)
Inductive Event : Type :=
| Compile (id : Id) (t : Tree)
| Release (id : Id) (s : Shape).

(** The entries of a [std::map], in the order of iteration: by key. *)
Definition items {V : Type} (m : gmap N V) : list (N * V) :=
  merge_sort key_le (map_to_list m).

(** One turn of the [while (itr != shapes.end())] loop. *)
Definition erase_step (live : gmap N Tree)
    (acc : gmap N Shape * list Event) (kv : N * Shape) : gmap N Shape * list Event :=
  match live !! kv.1 with
  | None => (delete kv.1 acc.1, acc.2 ++ [Release kv.1 kv.2])
  | Some _ => acc
  end.

(** "Erase shapes that are no longer in the script" *)
Definition erase_stale (live : gmap N Tree) (shapes : gmap N Shape)
    (log : list Event) : gmap N Shape * list Event :=
  foldl (erase_step live) (shapes, log) (items shapes).

(** "Create new shapes from the script": the [for (auto& t : interpreter.shapes)]
    loop over what is left of it. *)
Fixpoint create_new (todo : list (N * Tree)) (shapes : gmap N Shape)
    (log : list Event) : outcome (gmap N Shape * list Event) :=
  match todo with
  | [] => Done (shapes, log)
  | (k, t) :: rest =>
      match shapes !! k with
      | Some _ => create_new rest shapes log
      | None =>
          match compile t with
          | Some tp =>
              create_new rest (<[k := {| tape := tp; tree := t |}]> shapes)
                         (log ++ [Compile k t])
          | None => Uncaught (shapes, log ++ [Compile k t])
          end
      end
  end.

(** The two loops under [if (needs_eval)], after [interpreter.eval]:
    [live] is [interpreter.shapes], [shapes] the map owned by [main]. *)
Definition synchronize (live : gmap N Tree) (shapes : gmap N Shape)
    : outcome (gmap N Shape * list Event) :=
  let '(shapes, log) := erase_stale live shapes [] in
  create_new (items live) shapes log.

Definition sync_if (needs_eval : bool) (live : gmap N Tree) (shapes : gmap N Shape)
    : outcome (gmap N Shape * list Event) :=
  if needs_eval then synchronize live shapes else Done (shapes, []).

(** the entries the first loop erases, and those the second creates *)
Definition stale (live : gmap N Tree) (l : list (N * Shape)) : list (N * Shape) :=
  filter (fun kv => ¬ is_Some (live !! kv.1)) l.
Definition fresh (m : gmap N Shape) (l : list (N * Tree)) : list (N * Tree) :=
  filter (fun kv => ¬ is_Some (m !! kv.1)) l.

(** the identities released, and those compiled, in the order of the calls *)
Definition released (log : list Event) : list N :=
  omap (fun e => match e with Release k _ => Some k | Compile _ _ => None end) log.
Definition compiled (log : list Event) : list N :=
  omap (fun e => match e with Compile k _ => Some k | Release _ _ => None end) log.

End Sync.

(** how many times [k] occurs *)
Definition count (k : N) (l : list N) : nat :=
  length (filter (fun j => j = k) l).

Arguments tape {Tree Tape} s.
Arguments tree {Tree Tape} s.
Arguments Compile {Tree Tape} id t.
Arguments Release {Tree Tape} id s.
Arguments stale {Tree Tape} live l.
Arguments fresh {Tree Tape} m l.
Arguments released {Tree Tape} log.
Arguments compiled {Tree Tape} log.

End Scene.

(** ** The render surface and the per-shape render loop *)

Module Render.
Import Eigen.

(** [Eigen::Matrix4f] and [Eigen::Matrix3f]: the rows of coefficients *)
Abbreviation Matrix := (list (list Q)).

(** [m(i, j)] *)
Definition coeff (m : Matrix) (i j : nat) : Q :=
  default 0 (m !! i ≫= fun row => row !! j).

(** [m(i, j) = v] *)
Definition set_coeff (m : Matrix) (i j : nat) (v : Q) : Matrix :=
  alter (fun row => <[j := v]> row) i m.

(** [m.block<p, q>(r, c)], read *)
Definition block (p q r c : nat) (m : Matrix) : Matrix :=
  (fun row => take q (drop c row)) <$> take p (drop r m).

(** [dst.block<p, q>(r, c) = src]: every coefficient of [src] is stored
    at its place in [dst]. *)
Definition assign_block (r c : nat) (dst src : Matrix) : Matrix :=
  foldl (fun d '(i, row) =>
           foldl (fun d '(j, v) => set_coeff d (r + i) (c + j) v) d (imap pair row))
        dst (imap pair src).

(** [t.matrix()]: the 4x4 matrix of a transform *)
Definition matrix (t : Affine3) : Matrix :=
  let l := linear t in
  let v := translation t in
  [ [vx (row0 l); vy (row0 l); vz (row0 l); vx v];
    [vx (row1 l); vy (row1 l); vz (row1 l); vy v];
    [vx (row2 l); vy (row2 l); vz (row2 l); vz v];
    [0; 0; 0; 1] ].

(** The four block assignments that fill [mat2d]; [uninit] is what the
    declaration [Eigen::Matrix3f mat2d;] leaves in it. *)
Definition mat2d_of (uninit mat : Matrix) : Matrix :=
  let mat2d := uninit in
  let mat2d := assign_block 0 0 mat2d (block 2 2 0 0 mat) in
  let mat2d := assign_block 0 2 mat2d (block 2 1 0 3 mat) in
  let mat2d := assign_block 2 0 mat2d (block 1 2 3 0 mat) in
  let mat2d := assign_block 2 2 mat2d (block 1 1 3 3 mat) in
  mat2d.

(** a matrix of [p] rows and [q] columns *)
Definition has_shape (p q : nat) (m : Matrix) : Prop :=
  length m = p /\ Forall (fun row => length row = q) m.

(** the values of [render_mode] *)
Inductive Mode : Type :=
| RENDER_MODE_2D
| RENDER_MODE_DEPTH
| RENDER_MODE_NORMALS
| RENDER_MODE_SSAO
| RENDER_MODE_SHADED.

#[global] Instance Mode_eq_dec : EqDecision Mode.
Proof. solve_decision. Defined.

Definition TEXTURE_SIZE : Z := 2048.

(** Modelled from the spec: [mpr::Context] (context.hpp is not among the
    sources).  A context is the render surface: working buffers on the
    device, sized to the resolution its constructor is given and owned by
    it.  [buffers] names the allocation; constructing a context takes a
    fresh one, and a context that is assigned over gives its own back. *)
Record Context : Type := { image_size_px : Z; buffers : N }.

(** the render surface with the counter of allocations made so far *)
Record Gpu : Type := { ctx : Context; next_buffers : N }.

(** [mpr::Context ctx(render_size)] before the loop, with [render_size]
    256: the first allocation *)
Definition initial_gpu : Gpu :=
  {| ctx := {| image_size_px := 256; buffers := 0 |}; next_buffers := 1 |}.

(** the context holds an allocation that was made *)
Definition gpu_ok (g : Gpu) : Prop := (buffers (ctx g) < next_buffers g)%N.

Section Loop.
Variables (Tree Tape : Type).
Variable compile : Tree -> option Tape.

(** The calls a frame makes to the renderer, the effects, the texture
    copy and the archive, in order. *)
Inductive Call : Type :=
| Alloc (b : N) (size : Z)
| Free (b : N)
| render2D (c : Context) (t : Tape) (mat2d : Matrix)
| render3D (c : Context) (t : Tape) (mat : Matrix)
| drawSSAO (c : Context)
| drawShaded (c : Context)
| copy_to_texture (c : Context) (texture_size : Z) (append : bool) (mode : Mode)
| serialize (t : Tree)
| cerr (msg : string).

(** [mpr::Context(size)] *)
Definition Context_new (size : Z) (g : Gpu) : Gpu * list Call :=
  ({| ctx := {| image_size_px := size; buffers := next_buffers g |};
      next_buffers := N.succ (next_buffers g) |},
   [Alloc (next_buffers g) size]).

(** "Update the render context if size has changed":
    [ctx = mpr::Context(render_size)] builds the new context, then the
    assignment gives up the buffers [ctx] held. *)
Definition update_context (render_size : Z) (g : Gpu) : Gpu * list Call :=
  if decide (render_size ≠ image_size_px (ctx g)) then
    let old := buffers (ctx g) in
    let '(g', calls) := Context_new render_size g in
    (g', calls ++ [Free old])
  else (g, []).

(** what the user does in the "Settings" and "Shapes" windows in a frame *)
Record Ui : Type := {
  size_clicked : option Z;
  dimension_clicked : option Z;
  mode_clicked : option Mode;
  save_clicked : N -> bool;
  frep_is_open : bool
}.

(** [render_size], [render_dimension] and [render_mode] *)
Record Settings : Type := {
  render_size : Z;
  render_dimension : Z;
  render_mode : Mode
}.

Definition initial_settings : Settings :=
  {| render_size := 256; render_dimension := 3; render_mode := RENDER_MODE_NORMALS |}.

(** the radio buttons of the "Settings" window *)
Definition settings_window (ui : Ui) (s : Settings) : Settings :=
  let size := default (render_size s) (size_clicked ui) in
  let dimension := default (render_dimension s) (dimension_clicked ui) in
  let mode :=
    if decide (dimension = 3%Z) then default (render_mode s) (mode_clicked ui)
    else RENDER_MODE_2D in
  {| render_size := size; render_dimension := dimension; render_mode := mode |}.

(** the body of [for (auto& s : shapes)], up to [append = true] *)
Definition render_shape (c : Context) (model : Affine3) (s : Settings) (ui : Ui)
    (uninit : Matrix) (append : bool) (kv : N * Scene.Shape Tree Tape) : list Call :=
  (if decide (render_dimension s = 2%Z) then
     [render2D c (Scene.tape kv.2) (mat2d_of uninit (matrix model))]
   else
     [render3D c (Scene.tape kv.2) (matrix model)])
  ++ (if decide (render_mode s = RENDER_MODE_SSAO) then [drawSSAO c]
      else if decide (render_mode s = RENDER_MODE_SHADED) then [drawShaded c]
      else [])
  ++ [copy_to_texture c TEXTURE_SIZE append (render_mode s)]
  ++ (if save_clicked ui kv.1 then
        if frep_is_open ui then [serialize (Scene.tree kv.2)]
        else [cerr ("Could not open shape.frep" +:+ String "010"%char EmptyString)]
      else []).

(** the loop, with the value [append] has on entry *)
Fixpoint render_loop (c : Context) (model : Affine3) (s : Settings) (ui : Ui)
    (uninit : Matrix) (append : bool) (l : list (N * Scene.Shape Tree Tape))
    : list Call :=
  match l with
  | [] => []
  | kv :: rest =>
      render_shape c model s ui uninit append kv
      ++ render_loop c model s ui uninit true rest
  end.

(** the "Shapes" window: [bool append = false;] and the loop *)
Definition shapes_window (c : Context) (model : Affine3) (s : Settings) (ui : Ui)
    (uninit : Matrix) (shapes : gmap N (Scene.Shape Tree Tape)) : list Call :=
  render_loop c model s ui uninit false (Scene.items shapes).

(** what persists from one frame to the next *)
Record Session : Type := {
  gpu : Gpu;
  settings : Settings;
  shapes : gmap N (Scene.Shape Tree Tape)
}.

(** What one frame reads besides the session.  [evaluated] is
    [interpreter.shapes] after [interpreter.eval] when [needs_eval] was
    set, and [None] when it was not. *)
Record FrameInput : Type := {
  evaluated : option (gmap N Tree);
  ui : Ui;
  model : Affine3;
  uninit : Matrix
}.

(** The "Settings" and "Shapes" windows of one frame. *)
Definition draw_frame (i : FrameInput) (st : Session) : Session * list Call :=
  let s := settings_window (ui i) (settings st) in
  let '(g, resize) := update_context (render_size s) (gpu st) in
  ({| gpu := g; settings := s; shapes := shapes st |},
   resize ++ shapes_window (ctx g) (model i) s (ui i) (uninit i) (shapes st)).

(** One iteration of the main loop, from the "Text editor" window on:
    the reconciliation when the script was evaluated, then the two
    windows.  An exception in the reconciliation ends the iteration. *)
Definition frame (i : FrameInput) (st : Session)
    : Scene.outcome (Session * (list (Scene.Event Tree Tape) * list Call)) :=
  match evaluated i with
  | None =>
      let '(st', calls) := draw_frame i st in Scene.Done (st', ([], calls))
  | Some live =>
      match Scene.synchronize Tree Tape compile live (shapes st) with
      | Scene.Done (m, log) =>
          let '(st', calls) :=
            draw_frame i {| gpu := gpu st; settings := settings st; shapes := m |} in
          Scene.Done (st', (log, calls))
      | Scene.Uncaught (m, log) =>
          Scene.Uncaught
            ({| gpu := gpu st; settings := settings st; shapes := m |}, (log, []))
      end
  end.

(** the frames a run completes, each with the session it leaves and what
    it did *)
Fixpoint run (inputs : list FrameInput) (st : Session)
    : list (Session * (list (Scene.Event Tree Tape) * list Call)) :=
  match inputs with
  | [] => []
  | i :: rest =>
      match frame i st with
      | Scene.Done (st', did) => (st', did) :: run rest st'
      | Scene.Uncaught _ => []
      end
  end.

(** the [append] arguments of the texture copies, in order *)
Definition append_flags (calls : list Call) : list bool :=
  omap (fun c => match c with copy_to_texture _ _ a _ => Some a | _ => None end) calls.

(** the flags of a frame that draws [n] shapes: one copy for each, the
    first with [false], the others with [true] *)
Definition first_overwrites (n : nat) (flags : list bool) : Prop :=
  length flags = n /\
  forall (i : nat) (a : bool), flags !! i = Some a -> a = bool_decide (i ≠ 0%nat).

(** the context a call is given, when it is given one *)
Definition context_of (c : Call) : option Context :=
  match c with
  | render2D c _ _ | render3D c _ _ | drawSSAO c | drawShaded c
  | copy_to_texture c _ _ _ => Some c
  | _ => None
  end.

(** the calls that take or give back buffers *)
Definition is_allocation (c : Call) : bool :=
  match c with Alloc _ _ | Free _ => true | _ => false end.

(** The calls of a frame that replaces the surface [old] by the
    allocation [new] of [size] pixels: the allocation and the release come
    first, and every call after them that is given a context is given the
    new one. *)
Definition resized_first (old : Context) (new : N) (size : Z) (calls : list Call) : Prop :=
  exists draws : list Call,
    calls = Alloc new size :: Free (buffers old) :: draws /\
    Forall (fun call => is_allocation call = false /\
                        forall c, context_of call = Some c ->
                                  buffers c = new /\ image_size_px c = size)
           draws.

End Loop.

Arguments Alloc {Tree Tape} b size.
Arguments Free {Tree Tape} b.
Arguments render2D {Tree Tape} c t mat2d.
Arguments render3D {Tree Tape} c t mat.
Arguments copy_to_texture {Tree Tape} c texture_size append mode.
Arguments gpu {Tree Tape} s.
Arguments settings {Tree Tape} s.
Arguments shapes {Tree Tape} s.
Arguments evaluated {Tree} f.
Arguments ui {Tree} f.
Arguments model {Tree} f.
Arguments uninit {Tree} f.
Arguments append_flags {Tree Tape} calls.
Arguments context_of {Tree Tape} c.
Arguments is_allocation {Tree Tape} c.
Arguments resized_first {Tree Tape} old new size calls.
Arguments drawSSAO {Tree Tape} c.
Arguments drawShaded {Tree Tape} c.
Arguments serialize {Tree Tape} t.
Arguments cerr {Tree Tape} msg.

End Render.

(** ** Loading the script and saving it *)

Module Save.

Definition newline : ascii := "010"%char.
Definition endl : string := String newline EmptyString.

(** The loop [while (std::getline(input, line)) lines.emplace_back(line)]
    on what is left of the file.  [cur] is the line being read: [None]
    until the call has extracted a character.  A call that extracts
    nothing before the end of the file fails, and ends the loop. *)
Fixpoint getlines_from (cur : option string) (s : string) : list string :=
  match s with
  | EmptyString => match cur with Some l => [l] | None => [] end
  | String c rest =>
      if Ascii.eqb c newline then default EmptyString cur :: getlines_from None rest
      else getlines_from (Some (default EmptyString cur +:+ String c EmptyString)) rest
  end.

Definition getlines (content : string) : list string := getlines_from None content.

(** [for (auto& line : lines) output << line << "\n"] *)
Definition output_text (lines : list string) : string :=
  foldl (fun out line => out +:+ line +:+ endl) EmptyString lines.

(** a line of the editor holds no line break *)
Fixpoint no_newline (s : string) : bool :=
  match s with
  | EmptyString => true
  | String c rest => negb (Ascii.eqb c newline) && no_newline rest
  end.

(** [argv[1]] *)
Definition argv1 (argv : list string) : string := default EmptyString (argv !! 1%nat).

(** what the start of [main] leaves: the lines given to the editor, the
    flag [from_file], and what went to [std::cerr] *)
Record Startup : Type := {
  loaded : option (list string);
  from_file : bool;
  startup_cerr : list string
}.

(** "Create our text editor": [files] maps the paths that can be opened
    for reading to their contents. *)
Definition startup (argv : list string) (files : gmap string string) : Startup :=
  match argv !! 1%nat with
  | Some path =>
      match files !! path with
      | Some content =>
          {| loaded := Some (getlines content); from_file := true; startup_cerr := [] |}
      | None =>
          {| loaded := None; from_file := false;
             startup_cerr := ["Could not open file '" +:+ path +:+ "'" +:+ endl] |}
      end
  | None => {| loaded := None; from_file := false; startup_cerr := [] |}
  end.

(** what the save handler reads in one frame: the keyboard state, the
    lines of the editor, and whether [std::ofstream output(argv[1])]
    opens *)
Record KeyInput : Type := {
  WantCaptureKeyboard : bool;
  KeySuper : bool;
  KeysDown_S : bool;
  GetTextLines : list string;
  output_is_open : bool
}.

Record World : Type := { files : gmap string string; just_saved : bool }.

Inductive Effect : Type :=
| Wrote (path content : string)
| Failed (msg : string).

(** the block guarded by [!io.WantCaptureKeyboard] *)
Definition save_handler (argv : list string) (from_file : bool)
    (i : KeyInput) (w : World) : World * list Effect :=
  if WantCaptureKeyboard i then (w, [])
  else if KeySuper i && KeysDown_S i then
    if negb (just_saved w) && from_file then
      let path := argv1 argv in
      if output_is_open i then
        let text := output_text (GetTextLines i) in
        ({| files := <[path := text]> (files w); just_saved := true |},
         [Wrote path text])
      else
        ({| files := files w; just_saved := true |},
         [Failed ("Failed to save to '" +:+ path +:+ "'" +:+ endl)])
    else (w, [])
  else ({| files := files w; just_saved := false |}, []).

(** the effects of each frame of a run, frame by frame, and the world left *)
Fixpoint save_frames (argv : list string) (from_file : bool)
    (inputs : list KeyInput) (w : World) : World * list (list Effect) :=
  match inputs with
  | [] => (w, [])
  | i :: rest =>
      let '(w1, e) := save_handler argv from_file i w in
      let '(w2, es) := save_frames argv from_file rest w1 in
      (w2, e :: es)
  end.

(** [main], as far as the script file goes *)
Definition session (argv : list string) (files : gmap string string)
    (inputs : list KeyInput) : World * list (list Effect) :=
  save_frames argv (from_file (startup argv files)) inputs
              {| files := files; just_saved := false |}.

(** the chord Super+S is seen down *)
Definition chord (i : KeyInput) : bool := KeySuper i && KeysDown_S i.

(** the handler sees the chord released: this is where [just_saved] is
    cleared *)
Definition sees_release (i : KeyInput) : bool :=
  negb (WantCaptureKeyboard i) && negb (chord i).

(** the frame opened the file for writing *)
Definition attempts (e : list Effect) : nat := length e.

(** what the frame wrote, and where *)
Definition written (e : list Effect) : list (string * string) :=
  omap (fun x => match x with Wrote p c => Some (p, c) | Failed _ => None end) e.

Definition writes (e : list Effect) : nat := length (written e).

(** over the frames of a run *)
Definition total_attempts (es : list (list Effect)) : nat := attempts (concat es).
Definition total_writes (es : list (list Effect)) : nat := writes (concat es).

End Save.

(** ** Concrete inputs for the examples *)

Module Examples.
Import Eigen.

(** [cosf] and [sinf] for the examples.  The examples start from the
    initial view, whose angles are 0; what stands here is the cosine and
    the sine of 0. *)
Definition cosf0 (angle : Q) : Q := 1.
Definition sinf0 (angle : Q) : Q := 0.

(** [powf] for the examples: exact for a whole exponent *)
Definition powf_whole (b e : Q) : Q := Qpower b (View.trunc e).

(** a window of 800 by 600 with the pointer at (500, 300), after a drag
    of the first button by 100 pixels to the right *)
Definition io_pan : View.ImGuiIO :=
  {| View.DisplaySize := View.imvec2 800 600;
     View.MousePos := View.imvec2 500 300;
     View.MouseWheel := 0;
     View.WantCaptureMouse := false;
     View.IsMouseDragging0 := true;
     View.GetMouseDragDelta0 := View.imvec2 100 0;
     View.IsMouseDragging1 := false;
     View.GetMouseDragDelta1 := View.imvec2 0 0 |}.

(** the pointer at the centre of the window, and 5 notches of the wheel *)
Definition io_zoom : View.ImGuiIO :=
  {| View.DisplaySize := View.imvec2 800 600;
     View.MousePos := View.imvec2 400 300;
     View.MouseWheel := 5;
     View.WantCaptureMouse := false;
     View.IsMouseDragging0 := false;
     View.GetMouseDragDelta0 := View.imvec2 0 0;
     View.IsMouseDragging1 := false;
     View.GetMouseDragDelta1 := View.imvec2 0 0 |}.

(** trees and tapes are numbers; the tree 0 does not compile *)
Definition compile_ex (t : nat) : option nat :=
  if Nat.eqb t 0 then None else Some (t + 100)%nat.

(** a compiler that never fails *)
Definition compile_ok (t : nat) : option nat := Some (t + 100)%nat.

(** the compiled shapes of the identities 1 and 4 *)
Definition A_ex : gmap N (Scene.Shape nat nat) :=
  <[1%N := {| Scene.tape := 101%nat; Scene.tree := 1%nat |}]>
    (<[4%N := {| Scene.tape := 104%nat; Scene.tree := 4%nat |}]> ∅).

(** the script now has the identities 1 (with another tree), 2 and 3 *)
Definition B_ex : gmap N nat :=
  <[1%N := 7%nat]> (<[2%N := 0%nat]> (<[3%N := 3%nat]> ∅)).


Definition M_ex : Render.Matrix :=
  [ [1; 2; 3; 4]; [5; 6; 7; 8]; [9; 10; 11; 12]; [13; 14; 15; 16] ].
Definition uninit_ex : Render.Matrix := [ [0; 0; 0]; [0; 0; 0]; [0; 0; 0] ].

(** a frame in which the user picks the size 512 *)
Definition ui_ex : Render.Ui :=
  {| Render.size_clicked := Some 512%Z; Render.dimension_clicked := None;
     Render.mode_clicked := None; Render.save_clicked := fun _ => false;
     Render.frep_is_open := true |}.
Definition input_ex : Render.FrameInput nat :=
  {| Render.evaluated := None; Render.ui := ui_ex;
     Render.model := Identity; Render.uninit := uninit_ex |}.
Definition session_ex : Render.Session nat nat :=
  {| Render.gpu := Render.initial_gpu; Render.settings := Render.initial_settings;
     Render.shapes := A_ex |}.

(** the program was started on the file [shape.io] *)
Definition argv_ex : list string := ["demo"%string; "shape.io"%string].
Definition files_ex : gmap string string :=
  {[ "shape.io"%string := ("sphere" +:+ Save.endl)%string ]}.

(** Super+S is down *)
Definition key_down (opens : bool) : Save.KeyInput :=
  {| Save.WantCaptureKeyboard := false; Save.KeySuper := true; Save.KeysDown_S := true;
     Save.GetTextLines := ["sphere"%string; "box"%string];
     Save.output_is_open := opens |}.

End Examples.

(** ** The overlay: the image and the axes *)

Module Overlay.
Import Eigen View.

(** where [fmax] and [fmin] leave the pitch *)
Definition pitch_in_range (cam : Camera) : Prop :=
  - M_PI / 2 <= view_pitch cam /\ view_pitch cam <= M_PI / 2.

(** the yaw, wrapped to one turn *)
Definition yaw_wrapped (cam : Camera) : Prop :=
  0 <= view_yaw cam /\ view_yaw cam < 2 * M_PI.

(** [max_pixels] *)
Definition max_pixels (io : ImGuiIO) : Q := fmax (x (DisplaySize io)) (y (DisplaySize io)).

(** the two corners given to [background->AddImage] *)
Definition image_min (io : ImGuiIO) : ImVec2 :=
  imvec2 (x (DisplaySize io) / 2 - max_pixels io / 2)
         (y (DisplaySize io) / 2 + max_pixels io / 2).
Definition image_max (io : ImGuiIO) : ImVec2 :=
  imvec2 (x (DisplaySize io) / 2 + max_pixels io / 2)
         (y (DisplaySize io) / 2 - max_pixels io / 2).

(** "Draw XY axes based on current position": the points [center], [ax],
    [ay] and [az], each multiplied by [(model * view).inverse()] *)
Definition axes_points (cam : Camera) : list Vector3 :=
  List.map (apply (inverse (compose (model cam) (view cam))))
           [vec3 0 0 0; vec3 1 0 0; vec3 0 1 0; vec3 0 0 1].

(** a call of [background->AddLine]: the two ends and the colour *)
Record Line : Type := line { from : ImVec2; to : ImVec2; colour : Z }.

(** the three [AddLine] calls *)
Definition axes_lines (cam : Camera) : list Line :=
  match axes_points cam with
  | [center; ax; ay; az] =>
      let p (v : Vector3) := imvec2 (vx v) (vy v) in
      [ line (p center) (p ax) 0xFF0000FF;
        line (p center) (p ay) 0xFF00FF00;
        line (p center) (p az) 0xFFFF0000 ]
  | _ => []
  end.

End Overlay.

(** ** More about the compiled shapes *)

Module SceneMore.
Section More.
Variables (Tree Tape : Type).
Variable compile : Tree -> option Tape.



End More.
End SceneMore.

(** ** More about the render loop *)

Module RenderMore.
Import Render.
Section More.
Context {Tree Tape : Type}.

Definition is_render (c : Call Tree Tape) : bool :=
  match c with render2D _ _ _ | render3D _ _ _ => true | _ => false end.
Definition is_copy (c : Call Tree Tape) : bool :=
  match c with copy_to_texture _ _ _ _ => true | _ => false end.
Definition is_ssao (c : Call Tree Tape) : bool :=
  match c with drawSSAO _ => true | _ => false end.
Definition is_shaded (c : Call Tree Tape) : bool :=
  match c with drawShaded _ => true | _ => false end.

(** how many of the calls satisfy [f] *)
Definition count_calls (f : Call Tree Tape -> bool) (calls : list (Call Tree Tape)) : nat :=
  length (List.filter f calls).

(** a call of a frame drawn in 2D: no 3D render, no effect, and the
    copies in the mode [RENDER_MODE_2D] *)
Definition plane_call (c : Call Tree Tape) : Prop :=
  match c with
  | render3D _ _ _ | drawSSAO _ | drawShaded _ => False
  | copy_to_texture _ _ _ m => m = RENDER_MODE_2D
  | _ => True
  end.

(** a call of a frame that renders in 3D but copies in the mode
    [RENDER_MODE_2D] *)
Definition solid_call_plane_copy (c : Call Tree Tape) : Prop :=
  match c with
  | render2D _ _ _ | drawSSAO _ | drawShaded _ => False
  | copy_to_texture _ _ _ m => m = RENDER_MODE_2D
  | _ => True
  end.

(** the calls of the frames of a run, in order *)
Definition calls_of {E : Type} (frames : list (Session Tree Tape * (E * list (Call Tree Tape))))
    : list (Call Tree Tape) :=
  concat ((fun f => f.2.2) <$> frames).

(** A monitor of the surface: it records the allocations given back
    and accepts a list of calls when no call is given a context whose
    allocation was given back and no allocation is given back twice. *)
Fixpoint surface_safe (freed : list N) (calls : list (Call Tree Tape)) : Prop :=
  match calls with
  | [] => True
  | c :: rest =>
      match c with
      | Free b => (b ∉ freed) /\ surface_safe (b :: freed) rest
      | _ =>
          (match context_of c with
           | Some x => buffers x ∉ freed
           | None => True
           end) /\ surface_safe freed rest
      end
  end.

End More.
End RenderMore.

(** ** More about the script file *)

Module SaveMore.
Import Save.

(** the text ends inside a line: its last character is not a line break;
    [pending] says whether a line is open where the text starts *)
Fixpoint open_line (pending : bool) (s : string) : bool :=
  match s with
  | EmptyString => pending
  | String c rest => open_line (negb (Ascii.eqb c newline)) rest
  end.

End SaveMore.

(** ** The benchmarks (render_3d_table.cpp, render_2d_table.cpp) *)

Module Benchmark.

(** [i++] on a [uint32_t] *)
Definition uint32_incr (i : Z) : Z := ((i + 1) mod 2 ^ 32)%Z.

(** The inner loop [for (int y = 0; y < size; ++y)] of the copy into the
    heightmap, for the row [x]: the pixels written with the index of the
    buffer entry each one is given, and the index the loop leaves. *)
Fixpoint copy_row (x : nat) (ys : list nat) (i : Z) : list (nat * nat * Z) * Z :=
  match ys with
  | [] => ([], i)
  | y :: rest =>
      let '(l, i') := copy_row x rest (uint32_incr i) in ((x, y, i) :: l, i')
  end.

(** the outer loop [for (int x = 0; x < size; ++x)] *)
Fixpoint copy_rows (xs : list nat) (size : nat) (i : Z) : list (nat * nat * Z) :=
  match xs with
  | [] => []
  | x :: rest =>
      let '(l, i') := copy_row x (seq 0 size) i in l ++ copy_rows rest size i'
  end.

(** [uint32_t i = 0;] and the two loops *)
Definition copy_pixels (size : nat) : list (nat * nat * Z) :=
  copy_rows (seq 0 size) size 0%Z.

Section Table3D.
(** the mean time [get_stats] returns for a size (stats.hpp) *)
Variable mean_of : Z -> Q.

(** The loop [for (auto size : sizes)] of render_3d_table.cpp: the sizes
    it renders and writes, with [if (mean > 750) break;] at the end of
    the body. *)
Fixpoint rendered_sizes (sizes : list Z) : list Z :=
  match sizes with
  | [] => []
  | size :: rest =>
      size :: (if Qlt_le_dec 750 (mean_of size) then [] else rendered_sizes rest)
  end.

End Table3D.

Definition sizes_3d : list Z := [256; 512; 1024; 1536; 2048]%Z.
Definition sizes_2d : list Z := [256; 512; 1024; 2048; 3074; 4096]%Z.

End Benchmark.

(** ** More concrete inputs *)

Module MoreExamples.
Import Eigen.

(** a drag of the second button to the left *)
Definition io_left : View.ImGuiIO := View.rotate_event (View.imvec2 (- (50)) 20).

(** a frame in which the second button is down and the pointer rests *)
Definition io_still : View.ImGuiIO := View.rotate_event (View.imvec2 0 0).


(** the pointer at (400, 300) in a window of 800 by 600, and the wheel
    moved by [notches] *)
Definition io_wheel (notches : Q) : View.ImGuiIO :=
  {| View.DisplaySize := View.imvec2 800 600;
     View.MousePos := View.imvec2 400 300;
     View.MouseWheel := notches;
     View.WantCaptureMouse := false;
     View.IsMouseDragging0 := false;
     View.GetMouseDragDelta0 := View.imvec2 0 0;
     View.IsMouseDragging1 := false;
     View.GetMouseDragDelta1 := View.imvec2 0 0 |}.

(** the compiled shapes of [A_ex] and a script with the same identities *)
Definition B_same : gmap N nat := <[1%N := 7%nat]> (<[4%N := 9%nat]> ∅).

(** frames in which the user picks the dimension 2, and the dimension 3 *)
Definition ui_plane : Render.Ui :=
  {| Render.size_clicked := None; Render.dimension_clicked := Some 2%Z;
     Render.mode_clicked := None; Render.save_clicked := fun _ => false;
     Render.frep_is_open := true |}.
Definition ui_solid : Render.Ui :=
  {| Render.size_clicked := None; Render.dimension_clicked := Some 3%Z;
     Render.mode_clicked := None; Render.save_clicked := fun _ => false;
     Render.frep_is_open := true |}.
Definition ui_idle : Render.Ui :=
  {| Render.size_clicked := None; Render.dimension_clicked := None;
     Render.mode_clicked := None; Render.save_clicked := fun _ => false;
     Render.frep_is_open := true |}.
Definition input_of (u : Render.Ui) : Render.FrameInput nat :=
  {| Render.evaluated := None; Render.ui := u;
     Render.model := Identity; Render.uninit := Examples.uninit_ex |}.

(** the session after a frame drawn in 2D *)
Definition session_plane : Render.Session nat nat :=
  {| Render.gpu := Render.initial_gpu;
     Render.settings :=
       {| Render.render_size := 256; Render.render_dimension := 2;
          Render.render_mode := Render.RENDER_MODE_2D |};
     Render.shapes := Examples.A_ex |}.

(** Super+S is up *)
Definition key_up : Save.KeyInput :=
  {| Save.WantCaptureKeyboard := false; Save.KeySuper := false; Save.KeysDown_S := false;
     Save.GetTextLines := ["sphere"%string]; Save.output_is_open := true |}.

(** the keyboard belongs to a widget *)
Definition key_captured : Save.KeyInput :=
  {| Save.WantCaptureKeyboard := true; Save.KeySuper := false; Save.KeysDown_S := false;
     Save.GetTextLines := ["sphere"%string]; Save.output_is_open := true |}.

End MoreExamples.

(** * Properties *)

(** ** The camera *)

Section CameraFacts.
Import Eigen View.
Variables (cosf sinf : Q -> Q) (powf : Q -> Q -> Q).

Ltac unfold_camera :=
  cbv [zoom pan rotate_view update_mats worldOf worldOf_spec mouse_of AngleAxis
       toRotationMatrix Identity Identity3 translate scale scalev rotate compose
       apply mulv mmul rowmul dot col0 col1 col2 asDiagonal vadd vsub veq
       UnitX UnitZ linear translation row0 row1 row2 vx vy vz
       view_center view_scale view_pitch view_yaw model view
       x y DisplaySize MousePos MouseWheel GetMouseDragDelta0 GetMouseDragDelta1].

Ltac abstract_libm io cam :=
  generalize (powf (101 # 100) (MouseWheel io));
  generalize (2 / fmax (x (DisplaySize io)) (y (DisplaySize io)));
  generalize (cosf (view_yaw cam)); generalize (sinf (view_yaw cam));
  generalize (cosf (view_pitch cam)); generalize (sinf (view_pitch cam)).

(** the scroll block leaves [model * view * mouse] as it was *)
Lemma zoom_keeps_cursor : forall (io : ImGuiIO) (cam : Camera),
  let before := update_mats cosf sinf io cam in
  let after := zoom cosf sinf powf io before in
  veq (worldOf after (mouse_of io)) (worldOf before (mouse_of io)).
Proof.
  intros io cam. abstract_libm io cam.
  destruct io as [[w h] [mx my] wheel cap d0 [dx0 dy0] d1 [dx1 dy1]].
  destruct cam as [[cx cy cz] s p yw m v].
  unfold_camera. intros. repeat split; ring.
Qed.

(** C2.  Zooming keeps the world point under the cursor.  For every view,
    display size, cursor position and scroll amount, the scroll block
    multiplies the scale by [powf(1.01, scroll)], moves the centre by
    [-(end - start)], and leaves [model * view * mouse], the world
    position of the cursor, as it was.  The arithmetic is exact here; the
    program's differs from it by the rounding of [float]. *)
Theorem zoom_invariance : forall (io : ImGuiIO) (cam : Camera),
  let before := update_mats cosf sinf io cam in
  let scaled :=
    update_mats cosf sinf io
      {| view_center := view_center before;
         view_scale := view_scale before * powf (101 # 100) (MouseWheel io);
         view_pitch := view_pitch before; view_yaw := view_yaw before;
         model := model before; view := view before |} in
  let after := zoom cosf sinf powf io before in
  view_scale after = view_scale before * powf (101 # 100) (MouseWheel io) /\
  view_center after =
    vsub (view_center before)
         (vsub (worldOf scaled (mouse_of io)) (worldOf before (mouse_of io))) /\
  veq (worldOf after (mouse_of io)) (worldOf before (mouse_of io)).
Proof.
  intros io cam. split; [reflexivity|]. split; [reflexivity|].
  apply zoom_keeps_cursor.
Qed.

(** The same for a whole frame in which the wheel alone moved. *)
Lemma zoom_frame : forall (io : ImGuiIO) (cam : Camera),
  WantCaptureMouse io = false ->
  IsMouseDragging0 io = false -> IsMouseDragging1 io = false ->
  ~ MouseWheel io == 0 ->
  let before := update_mats cosf sinf io cam in
  let after := snd (handle_mouse cosf sinf powf io cam) in
  veq (worldOf after (mouse_of io)) (worldOf before (mouse_of io)).
Proof.
  intros io cam Hcap H0 H1 Hw. cbv zeta. unfold handle_mouse.
  rewrite Hcap, H0, H1.
  destruct (Qeq_bool (MouseWheel io) 0) eqn:E.
  - apply Qeq_bool_iff in E. contradiction.
  - apply zoom_keeps_cursor.
Qed.

(** C3, amended.  Panning keeps the world point under the pointer, where
    the world position of a screen point [p] is [model * view * p], as
    the handler computes it: after a drag from [a] to [b] the point that
    was under [a] is under [b]. *)
Theorem pan_invariance : forall (io : ImGuiIO) (cam : Camera),
  let before := update_mats cosf sinf io cam in
  let after := pan cosf sinf io before in
  let b := mouse_of io in
  let a := vsub b (vec3 (x (GetMouseDragDelta0 io)) (y (GetMouseDragDelta0 io)) 0) in
  view_center after =
    vadd (view_center before) (vsub (worldOf before a) (worldOf before b)) /\
  veq (worldOf after b) (worldOf before a).
Proof.
  intros io cam. split; [reflexivity|].
  abstract_libm io cam.
  destruct io as [[w h] [mx my] wheel cap d0 [dx0 dy0] d1 [dx1 dy1]].
  destruct cam as [[cx cy cz] s p yw m v].
  unfold_camera. intros. repeat split; ring.
Qed.

Lemma trunc_bound (q : Q) : inject_Z (trunc q) - 1 < q /\ q < inject_Z (trunc q) + 1.
Proof.
  destruct q as [a b]. unfold trunc, Qlt, Qminus, Qplus, Qopp, inject_Z. simpl.
  pose proof (Z.quot_rem' a (Z.pos b)) as E.
  destruct (Z.le_gt_cases 0 a) as [Ha|Ha].
  - pose proof (Z.rem_bound_pos a (Z.pos b) Ha ltac:(lia)). nia.
  - pose proof (Z.rem_bound_abs a (Z.pos b) ltac:(lia)).
    pose proof (Z.rem_nonpos a (Z.pos b) ltac:(lia) ltac:(lia)). lia.
Qed.

(** [fmod] stays below its second argument in size. *)
Lemma fmod_bound (a b : Q) : 0 < b -> - b < fmod a b /\ fmod a b < b.
Proof.
  intros Hb. unfold fmod.
  destruct (trunc_bound (a / b)) as [H1 H2].
  set (n := inject_Z (trunc (a / b))) in *.
  assert (E : a == (a / b) * b) by (field; lra).
  set (q := a / b) in *.
  split; rewrite E at 1; nra.
Qed.

Lemma rotate_view_yaw (io : ImGuiIO) (cam : Camera) :
  yaw_in_range (rotate_view cosf sinf io cam).
Proof.
  unfold yaw_in_range, rotate_view, update_mats. cbn [view_yaw].
  apply fmod_bound. reflexivity.
Qed.

Lemma handle_mouse_yaw (io : ImGuiIO) (cam : Camera) :
  yaw_in_range cam -> yaw_in_range (snd (handle_mouse cosf sinf powf io cam)).
Proof.
  intros H. unfold handle_mouse.
  destruct (WantCaptureMouse io); [exact H|].
  assert (H1 : yaw_in_range
            (if IsMouseDragging0 io then pan cosf sinf io (update_mats cosf sinf io cam)
             else update_mats cosf sinf io cam)).
  { destruct (IsMouseDragging0 io); exact H. }
  set (c1 := if IsMouseDragging0 io then _ else _) in *.
  assert (H2 : yaw_in_range (if IsMouseDragging1 io then rotate_view cosf sinf io c1 else c1)).
  { destruct (IsMouseDragging1 io); [apply rotate_view_yaw | exact H1]. }
  set (c2 := if IsMouseDragging1 io then _ else _) in *.
  destruct (Qeq_bool (MouseWheel io) 0); exact H2.
Qed.

(** C4, amended.  After any sequence of frames from the initial view, so
    after any sequence of rotations, the yaw lies strictly between
    [-2 * M_PI] and [2 * M_PI]: [fmod] keeps the sign of the yaw it
    wraps. *)
Theorem yaw_range : forall (ios : list ImGuiIO) (io0 : ImGuiIO),
  let cam := run_frames cosf sinf powf ios (initial_camera cosf sinf io0) in
  - (2 * M_PI) < view_yaw cam /\ view_yaw cam < 2 * M_PI.
Proof.
  intros ios io0. cbv zeta.
  change (yaw_in_range (run_frames cosf sinf powf ios (initial_camera cosf sinf io0))).
  assert (H0 : yaw_in_range (initial_camera cosf sinf io0)) by (split; reflexivity).
  revert H0. generalize (initial_camera cosf sinf io0) as cam.
  unfold run_frames. induction ios as [|io ios IH]; intros cam H; [exact H|].
  cbn [fold_left]. apply IH. apply handle_mouse_yaw, H.
Qed.

End CameraFacts.

Lemma veq_veqb (a b : Eigen.Vector3) : Eigen.veq a b -> Eigen.veqb a b = true.
Proof.
  intros (H1 & H2 & H3). unfold Eigen.veqb.
  apply Qeq_bool_iff in H1, H2, H3. rewrite H1, H2, H3. reflexivity.
Qed.

(** The scenario of the specification: a window of 800 by 600, the scale
    1, the cursor at (400, 300), a scroll of 5.  The scale becomes
    [1.01^5] and the world position of the cursor stays. *)
Example zoom_scenario :
  let cam0 :=
    {| View.view_center := Eigen.vec3 0 0 0; View.view_scale := 1;
       View.view_pitch := 0; View.view_yaw := 0;
       View.model := Eigen.Identity; View.view := Eigen.Identity |} in
  let before := View.update_mats Examples.cosf0 Examples.sinf0 Examples.io_zoom cam0 in
  let after := View.zoom Examples.cosf0 Examples.sinf0 Examples.powf_whole Examples.io_zoom before in
  View.view_scale after == (101 # 100) ^ 5 /\
  Eigen.veq (View.worldOf after (Eigen.vec3 400 300 0))
            (View.worldOf before (Eigen.vec3 400 300 0)).
Proof.
  cbv zeta. split.
  - change (1 * (101 # 100) ^ 5 == (101 # 100) ^ 5). apply Qmult_1_l.
  - apply (zoom_keeps_cursor Examples.cosf0 Examples.sinf0 Examples.powf_whole Examples.io_zoom).
Qed.

(** C3, as stated, fails.  With the initial view in a window of 800 by
    600 and a drag from (400, 300) to (500, 300): read through
    [inverse(model * view)], the point under [a] before the drag is not
    the point under [b] after it, and the centre the handler computes is
    not the centre of the formula with the inverse.  Read through
    [model * view] the two points agree. *)
Lemma pan_inverse_counterexample :
  let before := View.initial_camera Examples.cosf0 Examples.sinf0 Examples.io_pan in
  let after := View.pan Examples.cosf0 Examples.sinf0 Examples.io_pan before in
  let b := Eigen.vec3 500 300 0 in
  let a := Eigen.vec3 400 300 0 in
  ~ Eigen.veq (View.worldOf_spec after b) (View.worldOf_spec before a) /\
  ~ Eigen.veq (View.view_center after)
        (Eigen.vadd (View.view_center before)
           (Eigen.vsub (View.worldOf_spec before a) (View.worldOf_spec before b))) /\
  Eigen.veq (View.worldOf after b) (View.worldOf before a).
Proof.
  cbv zeta. split; [|split].
  - intros H. apply veq_veqb in H. vm_compute in H. discriminate H.
  - intros H. apply veq_veqb in H. vm_compute in H. discriminate H.
  - repeat split; apply Qeq_bool_iff; vm_compute; reflexivity.
Qed.

(** C4, as stated, fails.  One drag of the second button by 100 pixels to
    the right, from the initial view, leaves the yaw at -1. *)
Lemma yaw_negative_counterexample :
  let io := View.rotate_event (View.imvec2 100 0) in
  let cam := View.run_frames Examples.cosf0 Examples.sinf0 Examples.powf_whole [io]
               (View.initial_camera Examples.cosf0 Examples.sinf0 io) in
  View.view_yaw cam == - (1) /\
  ~ (0 <= View.view_yaw cam /\ View.view_yaw cam < 2 * View.M_PI).
Proof.
  cbv zeta. split.
  - vm_compute. reflexivity.
  - intros [H _]. vm_compute in H. apply H. reflexivity.
Qed.

(** ** The reconciliation of the compiled shapes *)

Section SceneFacts.
Import Scene.
Context {Tree Tape : Type}.
Variable compile : Tree -> option Tape.

Abbreviation Shape := (Shape Tree Tape).
Abbreviation Event := (Event Tree Tape).

Lemma items_perm {V : Type} (m : gmap N V) : items m ≡ₚ map_to_list m.
Proof. apply merge_sort_Permutation. Qed.

Lemma elem_of_items {V : Type} (m : gmap N V) (k : N) (v : V) :
  (k, v) ∈ items m <-> m !! k = Some v.
Proof. rewrite items_perm. apply elem_of_map_to_list. Qed.

Lemma NoDup_items {V : Type} (m : gmap N V) : NoDup (items m).*1.
Proof. rewrite items_perm. apply NoDup_fst_map_to_list. Qed.

Lemma elem_of_items_keys {V : Type} (m : gmap N V) (k : N) :
  k ∈ (items m).*1 <-> is_Some (m !! k).
Proof.
  rewrite list_elem_of_fmap. split.
  - intros [[k' v] [-> H]]. apply elem_of_items in H. eauto.
  - intros [v H]. exists (k, v). split; [done|]. by apply elem_of_items.
Qed.

Lemma count_cons (k j : N) (l : list N) :
  count k (j :: l) = ((if decide (j = k) then 1 else 0) + count k l)%nat.
Proof. unfold count. rewrite filter_cons. destruct (decide (j = k)); done. Qed.

Lemma count_app (k : N) (l1 l2 : list N) : count k (l1 ++ l2) = (count k l1 + count k l2)%nat.
Proof. unfold count. by rewrite filter_app, length_app. Qed.

Lemma count_notin (k : N) (l : list N) : k ∉ l -> count k l = 0%nat.
Proof.
  induction l as [|j l IH]; [done|]. rewrite not_elem_of_cons. intros [Hne Hl].
  rewrite count_cons, IH by done. destruct (decide (j = k)); [congruence|done].
Qed.

Lemma count_NoDup (k : N) (l : list N) : NoDup l -> k ∈ l -> count k l = 1%nat.
Proof.
  induction l as [|j l IH]; [by rewrite elem_of_nil|].
  rewrite NoDup_cons, elem_of_cons. intros [Hj Hl] [->|Hk].
  - rewrite count_cons, count_notin by done. by rewrite decide_True.
  - rewrite count_cons, IH by done. rewrite decide_False; [done|]. by intros ->.
Qed.

Lemma erase_fold (live : gmap N Tree) (l : list (N * Shape)) :
  forall (m : gmap N Shape) (log : list Event),
    (foldl (erase_step Tree Tape live) (m, log) l).2
      = log ++ ((fun kv => Release kv.1 kv.2) <$> stale live l) /\
    forall k, (foldl (erase_step Tree Tape live) (m, log) l).1 !! k
      = if decide (k ∈ (stale live l).*1) then None else m !! k.
Proof.
  unfold stale. induction l as [|[j s] l IH]; intros m log.
  - cbn. split; [by rewrite app_nil_r|]. intros k. rewrite decide_False; [done|].
    apply not_elem_of_nil.
  - cbn [foldl]. unfold erase_step at 2 4. cbn [fst snd].
    destruct (live !! j) as [t|] eqn:E.
    + rewrite filter_cons_False by (cbn; rewrite E; intros H; apply H; eauto).
      apply IH.
    + rewrite filter_cons_True by (cbn; rewrite E; intros [? ?]; done).
      destruct (IH (delete j m) (log ++ [Release j s])) as [IH1 IH2].
      split.
      * rewrite IH1. rewrite <- app_assoc. done.
      * intros k. rewrite IH2. cbn.
        destruct (decide (k = j)) as [->|Hne].
        -- rewrite lookup_delete_eq.
           destruct (decide (j ∈ _ :: _)) as [_|Hn]; [by destruct (decide _)|].
           exfalso. apply Hn. apply elem_of_cons. by left.
        -- rewrite lookup_delete_ne by done.
           destruct (decide (k ∈ _)) as [Hin|Hin].
           ++ rewrite decide_True; [done|]. apply elem_of_cons. by right.
           ++ rewrite decide_False; [done|]. rewrite not_elem_of_cons. by split.
Qed.

Lemma fresh_insert (m : gmap N Shape) (k : N) (s : Shape) (l : list (N * Tree)) :
  k ∉ l.*1 -> fresh (<[k := s]> m) l = fresh m l.
Proof.
  unfold fresh. induction l as [|[j t] l IH]; [done|]. intros Hnot.
  rewrite fmap_cons in Hnot. apply not_elem_of_cons in Hnot as [Hne Hl].
  rewrite !filter_cons. cbn [fst]. rewrite lookup_insert_ne by done.
  rewrite IH by done. done.
Qed.

Lemma create_new_done (todo : list (N * Tree)) :
  forall (m : gmap N Shape) (log : list Event),
    NoDup todo.*1 ->
    (forall k t, (k, t) ∈ todo -> m !! k = None -> is_Some (compile t)) ->
    exists m',
      create_new Tree Tape compile todo m log
        = Done (m', log ++ ((fun kv => Compile kv.1 kv.2) <$> fresh m todo)) /\
      (forall k s, m !! k = Some s -> m' !! k = Some s) /\
      (forall k t, (k, t) ∈ todo -> m !! k = None ->
         exists tp, compile t = Some tp /\ m' !! k = Some {| tape := tp; tree := t |}) /\
      (forall k, m !! k = None -> k ∉ todo.*1 -> m' !! k = None).
Proof.
  induction todo as [|[j t] todo IH]; intros m log Hnd Hc.
  - exists m. cbn. rewrite app_nil_r. repeat split; try done.
    intros k t Hin. by apply elem_of_nil in Hin.
  - cbn in Hnd. apply NoDup_cons in Hnd as [Hj Hnd]. cbn [create_new].
    destruct (m !! j) as [s|] eqn:E.
    + destruct (IH m log Hnd) as (m' & Hrun & Hold & Hnew & Hnone).
      { intros k t' Hin. apply Hc. by right. }
      exists m'. unfold fresh in *. rewrite filter_cons_False
        by (cbn; rewrite E; intros H; apply H; eauto).
      repeat split; try done.
      * intros k t' Hin Hk. apply elem_of_cons in Hin as [[= -> ->]|Hin]; [congruence|].
        by apply Hnew.
      * intros k Hk Hnot. apply Hnone; [done|].
        rewrite fmap_cons in Hnot. by apply not_elem_of_cons in Hnot as [_ ?].
    + destruct (Hc j t) as [tp Htp]; [by left|done|]. rewrite Htp.
      set (s := {| tape := tp; tree := t |}).
      destruct (IH (<[j := s]> m) (log ++ [Compile j t]) Hnd) as (m' & Hrun & Hold & Hnew & Hnone).
      { intros k t' Hin Hk. apply (Hc k t'); [by right|].
        destruct (decide (k = j)) as [->|Hne]; [by rewrite lookup_insert_eq in Hk|].
        by rewrite lookup_insert_ne in Hk. }
      exists m'. rewrite Hrun. rewrite fresh_insert by done.
      unfold fresh at 2. rewrite filter_cons_True by (cbn; rewrite E; intros [? ?]; done).
      fold (fresh m todo). cbn [fmap list_fmap]. rewrite <- app_assoc. cbn.
      repeat split.
      * intros k s' Hk. apply Hold. rewrite lookup_insert_ne; [done|]. congruence.
      * intros k t' Hin Hk. apply elem_of_cons in Hin as [[= -> ->]|Hin].
        -- exists tp. split; [done|]. apply Hold. by rewrite lookup_insert_eq.
        -- apply Hnew; [done|]. rewrite lookup_insert_ne; [done|].
           intros ->. apply Hj. apply list_elem_of_fmap. by exists (k, t').
      * intros k Hk Hnot. cbn in Hnot. apply not_elem_of_cons in Hnot as [Hne Hnot].
        apply Hnone; [|done]. by rewrite lookup_insert_ne.
Qed.

Lemma released_app (l1 l2 : list Event) : released (l1 ++ l2) = released l1 ++ released l2.
Proof. apply omap_app. Qed.

Lemma compiled_app (l1 l2 : list Event) : compiled (l1 ++ l2) = compiled l1 ++ compiled l2.
Proof. apply omap_app. Qed.

Lemma released_Release (l : list (N * Shape)) :
  released ((fun kv => Release kv.1 kv.2) <$> l) = l.*1.
Proof. induction l as [|kv l IH]; [done|]. cbn. by f_equal. Qed.

Lemma compiled_Release (l : list (N * Shape)) :
  compiled ((fun kv => Release kv.1 kv.2) <$> l) = [].
Proof. induction l as [|kv l IH]; done. Qed.

Lemma released_Compile (l : list (N * Tree)) :
  released ((fun kv => Compile (Tape := Tape) kv.1 kv.2) <$> l) = [].
Proof. induction l as [|kv l IH]; done. Qed.

Lemma compiled_Compile (l : list (N * Tree)) :
  compiled ((fun kv => Compile (Tape := Tape) kv.1 kv.2) <$> l) = l.*1.
Proof. induction l as [|kv l IH]; [done|]. cbn. by f_equal. Qed.

Lemma NoDup_filter_keys {V : Type} (P : N * V -> Prop) `{forall x, Decision (P x)}
    (l : list (N * V)) :
  NoDup l.*1 -> NoDup (filter P l).*1.
Proof.
  induction l as [|kv l IH]; [done|]. rewrite fmap_cons, NoDup_cons. intros [Hk Hl].
  rewrite filter_cons. destruct (decide (P kv)); [|by apply IH].
  rewrite fmap_cons. apply NoDup_cons. split; [|by apply IH].
  intros Hin. apply Hk. apply list_elem_of_fmap in Hin as (x & -> & Hx).
  apply list_elem_of_filter in Hx as [_ Hx]. apply list_elem_of_fmap. by exists x.
Qed.

Lemma elem_of_stale_keys (live : gmap N Tree) (A : gmap N Shape) (k : N) :
  k ∈ (stale live (items A)).*1 <-> is_Some (A !! k) /\ live !! k = None.
Proof.
  unfold stale. rewrite list_elem_of_fmap. split.
  - intros ([j s] & -> & Hin). apply list_elem_of_filter in Hin as [Hn Hin].
    apply elem_of_items in Hin. cbn in *. split; [eauto|].
    destruct (live !! j) eqn:E; [|done]. exfalso. apply Hn. eauto.
  - intros [[s Hs] Hl]. exists (k, s). split; [done|].
    apply list_elem_of_filter. split; [|by apply elem_of_items].
    cbn. rewrite Hl. by intros [? ?].
Qed.

Lemma elem_of_fresh_keys (m : gmap N Shape) (B : gmap N Tree) (k : N) :
  k ∈ (fresh m (items B)).*1 <-> is_Some (B !! k) /\ m !! k = None.
Proof.
  unfold fresh. rewrite list_elem_of_fmap. split.
  - intros ([j t] & -> & Hin). apply list_elem_of_filter in Hin as [Hn Hin].
    apply elem_of_items in Hin. cbn in *. split; [eauto|].
    destruct (m !! j) eqn:E; [|done]. exfalso. apply Hn. eauto.
  - intros [[t Ht] Hl]. exists (k, t). split; [done|].
    apply list_elem_of_filter. split; [|by apply elem_of_items].
    cbn. rewrite Hl. by intros [? ?].
Qed.

(** the map the first loop leaves *)
Lemma erase_stale_spec (live : gmap N Tree) (A : gmap N Shape) :
  (erase_stale Tree Tape live A []).2 = (fun kv => Release kv.1 kv.2) <$> stale live (items A) /\
  forall k, (erase_stale Tree Tape live A []).1 !! k
    = match live !! k with Some _ => A !! k | None => None end.
Proof.
  unfold erase_stale. destruct (erase_fold live (items A) A []) as [H1 H2].
  split; [by rewrite H1|]. intros k. rewrite H2.
  destruct (decide _) as [Hin|Hin].
  - apply elem_of_stale_keys in Hin as [_ ->]. done.
  - destruct (live !! k) eqn:E; [done|].
    destruct (A !! k) eqn:EA; [|done]. exfalso. apply Hin.
    apply elem_of_stale_keys. split; eauto.
Qed.

(** C1.  When the script goes from the identities of [A] to those of [B]
    and every new tree compiles, the reconciliation ends normally and
    leaves a map whose keys are those of [B].  An identity of [A] that is
    not in [B] has its entry, tape included, released once and is not
    compiled; an identity of [B] that is not in [A] is compiled once, not
    released, and gets the entry made of its tape and tree; an identity of
    both is neither compiled nor released and keeps the entry it had,
    whatever tree the script now binds to it. *)
Theorem synchronize_correct (A : gmap N Shape) (B : gmap N Tree) :
  (forall k t, B !! k = Some t -> A !! k = None -> is_Some (compile t)) ->
  exists (shapes : gmap N Shape) (log : list Event),
    synchronize Tree Tape compile B A = Done (shapes, log) /\
    dom shapes = dom B /\
    (forall k s, A !! k = Some s -> B !! k = None ->
       count k (released log) = 1%nat /\ count k (compiled log) = 0%nat /\
       Release k s ∈ log /\ shapes !! k = None) /\
    (forall k t, B !! k = Some t -> A !! k = None ->
       count k (compiled log) = 1%nat /\ count k (released log) = 0%nat /\
       exists tp, compile t = Some tp /\ shapes !! k = Some {| tape := tp; tree := t |}) /\
    (forall k s t, A !! k = Some s -> B !! k = Some t ->
       count k (compiled log) = 0%nat /\ count k (released log) = 0%nat /\
       shapes !! k = Some s).
Proof.
  intros Hc. unfold synchronize.
  destruct (erase_stale_spec B A) as [Hlog Hm].
  destruct (erase_stale Tree Tape B A []) as [m1 log1]. cbn [fst snd] in Hlog, Hm.
  destruct (create_new_done (items B) m1 log1 (NoDup_items B)) as (m' & Hrun & Hold & Hnew & Hnone).
  { intros k t Hin Hk. apply elem_of_items in Hin. apply (Hc k t Hin).
    rewrite Hm, Hin in Hk. done. }
  exists m', (log1 ++ ((fun kv => Compile kv.1 kv.2) <$> fresh m1 (items B))).
  split; [exact Hrun|]. subst log1.
  rewrite released_app, compiled_app, released_Release, compiled_Release,
    released_Compile, compiled_Compile, app_nil_r, app_nil_l.
  assert (Hfresh : forall k, k ∈ (fresh m1 (items B)).*1 <-> is_Some (B !! k) /\ A !! k = None).
  { intros k. rewrite elem_of_fresh_keys, Hm. split.
    - intros [[t Ht] H]. rewrite Ht in H. eauto.
    - intros [[t Ht] H]. rewrite Ht. eauto. }
  assert (Hnd1 : NoDup (stale B (items A)).*1) by apply NoDup_filter_keys, NoDup_items.
  assert (Hnd2 : NoDup (fresh m1 (items B)).*1) by apply NoDup_filter_keys, NoDup_items.
  split; [|split; [|split]].
  - apply set_eq. intros k. rewrite !elem_of_dom. split.
    + intros [s Hs]. destruct (B !! k) as [t|] eqn:EB; [eauto|]. exfalso.
      rewrite Hnone in Hs; [done| |].
      * by rewrite Hm, EB.
      * rewrite elem_of_items_keys, EB. by intros [? ?].
    + intros [t Ht]. destruct (m1 !! k) as [s|] eqn:E1.
      * rewrite (Hold k s E1). eauto.
      * destruct (Hnew k t) as (tp & _ & ->); [by apply elem_of_items|done|eauto].
  - intros k s HA HB. repeat split.
    + apply count_NoDup; [done|]. apply elem_of_stale_keys. eauto.
    + apply count_notin. rewrite Hfresh, HA. by intros [_ ?].
    + apply elem_of_app. left. apply list_elem_of_fmap. exists (k, s). split; [done|].
      apply list_elem_of_filter. split; [|by apply elem_of_items].
      cbn. rewrite HB. by intros [? ?].
    + apply Hnone; [by rewrite Hm, HB|]. rewrite elem_of_items_keys, HB. by intros [? ?].
  - intros k t HB HA. repeat split.
    + apply count_NoDup; [done|]. apply Hfresh. eauto.
    + apply count_notin. rewrite elem_of_stale_keys, HA. by intros [[? ?] _].
    + apply Hnew; [by apply elem_of_items|]. by rewrite Hm, HB.
  - intros k s t HA HB. repeat split.
    + apply count_notin. rewrite Hfresh, HA. by intros [_ ?].
    + apply count_notin. rewrite elem_of_stale_keys, HB. by intros [_ ?].
    + apply Hold. by rewrite Hm, HB.
Qed.

Lemma create_new_uncaught (todo : list (N * Tree)) :
  forall (m : gmap N Shape) (log : list Event),
    NoDup todo.*1 ->
    (exists k t, (k, t) ∈ todo /\ m !! k = None /\ compile t = None) ->
    exists m' log0 k t,
      create_new Tree Tape compile todo m log = Uncaught (m', log ++ log0 ++ [Compile k t]) /\
      (k, t) ∈ todo /\ m !! k = None /\ compile t = None /\ m' !! k = None /\
      released log0 = [] /\
      (forall j s, m !! j = Some s -> m' !! j = Some s) /\
      (forall j, m !! j = None -> j ∉ todo.*1 -> m' !! j = None).
Proof.
  induction todo as [|[j t0] todo IH]; intros m log Hnd (k & t & Hin & Hk & Hf).
  - by apply elem_of_nil in Hin.
  - rewrite fmap_cons in Hnd. apply NoDup_cons in Hnd as [Hj Hnd]. cbn [create_new].
    destruct (m !! j) as [s|] eqn:E.
    + apply elem_of_cons in Hin as [[= -> ->]|Hin]; [congruence|].
      destruct (IH m log Hnd) as (m' & log0 & k' & t' & Hrun & H1 & H2 & H3 & H4 & H5 & H6 & H7);
        [by eauto|].
      exists m', log0, k', t'. repeat split; try done; [by right|].
      intros j' Hj' Hn. rewrite fmap_cons in Hn. apply not_elem_of_cons in Hn as [_ Hn].
      by apply H7.
    + destruct (compile t0) as [tp|] eqn:Ec.
      * apply elem_of_cons in Hin as [[= -> ->]|Hin]; [congruence|].
        assert (Hne : k ≠ j).
        { intros ->. apply Hj. apply list_elem_of_fmap. by exists (j, t). }
        destruct (IH (<[j := {| tape := tp; tree := t0 |}]> m) (log ++ [Compile j t0]) Hnd)
          as (m' & log0 & k' & t' & Hrun & H1 & H2 & H3 & H4 & H5 & H6 & H7).
        { exists k, t. by rewrite lookup_insert_ne. }
        exists m', (Compile j t0 :: log0), k', t'.
        rewrite Hrun, <- app_assoc. repeat split; try done.
        -- by right.
        -- destruct (decide (k' = j)) as [->|Hkj]; [by rewrite lookup_insert_eq in H2|].
           by rewrite lookup_insert_ne in H2.
        -- intros j' s Hs. apply H6. rewrite lookup_insert_ne; [done|]. congruence.
        -- intros j' Hj' Hn. rewrite fmap_cons in Hn. apply not_elem_of_cons in Hn as [Hne' Hn].
           apply H7; [|done]. by rewrite lookup_insert_ne.
      * exists m, [], j, t0. repeat split; try done. by left.
Qed.

(** C8, amended.  When the tree of an identity that has no entry yet
    does not compile, the exception leaves the reconciliation: nothing
    reports it.  At that point the last call was the compilation that
    failed and its identity has no entry; the entries of the identities
    that the script still has are as they were and none of them was
    released; the entries of the identities that the script no longer has
    were released, once each. *)
Theorem compile_failure_uncaught (A : gmap N Shape) (B : gmap N Tree) :
  (exists k t, B !! k = Some t /\ A !! k = None /\ compile t = None) ->
  exists (shapes : gmap N Shape) (log : list Event) (k : N) (t : Tree),
    synchronize Tree Tape compile B A = Uncaught (shapes, log) /\
    last log = Some (Compile k t) /\
    B !! k = Some t /\ A !! k = None /\ compile t = None /\ shapes !! k = None /\
    (forall j s, A !! j = Some s -> is_Some (B !! j) ->
       shapes !! j = Some s /\ count j (released log) = 0%nat) /\
    (forall j s, A !! j = Some s -> B !! j = None ->
       shapes !! j = None /\ count j (released log) = 1%nat).
Proof.
  intros (k & t & HB & HA & Hf). unfold synchronize.
  destruct (erase_stale_spec B A) as [Hlog Hm].
  destruct (erase_stale Tree Tape B A []) as [m1 log1]. cbn [fst snd] in Hlog, Hm.
  destruct (create_new_uncaught (items B) m1 log1 (NoDup_items B))
    as (m' & log0 & k' & t' & Hrun & H1 & H2 & H3 & H4 & H5 & H6 & H7).
  { exists k, t. split; [by apply elem_of_items|]. split; [|done]. by rewrite Hm, HB. }
  apply elem_of_items in H1.
  assert (HA' : A !! k' = None) by (rewrite Hm, H1 in H2; done).
  exists m', (log1 ++ log0 ++ [Compile k' t']), k', t'.
  split; [exact Hrun|]. split; [by rewrite app_assoc, last_snoc|].
  do 4 (split; [done|]). subst log1.
  rewrite !released_app, released_Release, H5. cbn [released omap app]. rewrite !app_nil_r.
  assert (Hnd1 : NoDup (stale B (items A)).*1) by apply NoDup_filter_keys, NoDup_items.
  split.
  - intros j s Hs [tj Htj]. split.
    + apply H6. by rewrite Hm, Htj.
    + apply count_notin. rewrite elem_of_stale_keys, Htj. by intros [_ ?].
  - intros j s Hs Hj. split.
    + apply H7; [by rewrite Hm, Hj|]. rewrite elem_of_items_keys, Hj. by intros [? ?].
    + apply count_NoDup; [done|]. apply elem_of_stale_keys. eauto.
Qed.

End SceneFacts.


(** C8, as stated, fails.  The shapes 1 and 4 are compiled, the script has
    1, 2 and 3, and the tree of 2 does not compile.  The reconciliation
    does not end normally, so no set of compiled shapes that lacks just
    the identity 2 comes out of it; when the exception leaves, the
    identity 3 has no entry either. *)
Lemma compile_failure_counterexample :
  Scene.is_done (Scene.synchronize nat nat Examples.compile_ex Examples.B_ex Examples.A_ex) = false /\
  ~ (exists shapes log,
       Scene.synchronize nat nat Examples.compile_ex Examples.B_ex Examples.A_ex
         = Scene.Done (shapes, log) /\
       dom shapes = dom Examples.B_ex ∖ {[2%N]}) /\
  match Scene.synchronize nat nat Examples.compile_ex Examples.B_ex Examples.A_ex with
  | Scene.Done _ => False
  | Scene.Uncaught (shapes, log) =>
      log = [Scene.Release 4%N {| Scene.tape := 104%nat; Scene.tree := 4%nat |};
             Scene.Compile 2%N 0%nat] /\
      shapes !! 1%N = Some {| Scene.tape := 101%nat; Scene.tree := 1%nat |} /\
      shapes !! 2%N = None /\ shapes !! 3%N = None
  end.
Proof.
  assert (H : Scene.is_done
                (Scene.synchronize nat nat Examples.compile_ex Examples.B_ex Examples.A_ex) = false)
    by (vm_compute; reflexivity).
  split; [exact H|]. split.
  - intros (s & l & E & _). rewrite E in H. discriminate H.
  - vm_compute. repeat split.
Qed.

Lemma synchronize_correct_witness :
  (forall k t, Examples.B_ex !! k = Some t -> Examples.A_ex !! k = None ->
               is_Some (Examples.compile_ok t)) /\
  exists shapes log,
    Scene.synchronize nat nat Examples.compile_ok Examples.B_ex Examples.A_ex
      = Scene.Done (shapes, log) /\
    dom shapes = dom Examples.B_ex.
Proof.
  assert (H : forall k t, Examples.B_ex !! k = Some t -> Examples.A_ex !! k = None ->
                          is_Some (Examples.compile_ok t)).
  { intros k t _ _. unfold Examples.compile_ok. eauto. }
  split; [exact H|].
  destruct (synchronize_correct Examples.compile_ok Examples.A_ex Examples.B_ex H)
    as (s & l & H1 & H2 & _).
  exists s, l. split; assumption.
Defined.

Lemma compile_failure_uncaught_witness :
  (exists k t, Examples.B_ex !! k = Some t /\ Examples.A_ex !! k = None /\
               Examples.compile_ex t = None) /\
  Scene.is_done (Scene.synchronize nat nat Examples.compile_ex Examples.B_ex Examples.A_ex) = false.
Proof.
  assert (H : exists k t, Examples.B_ex !! k = Some t /\ Examples.A_ex !! k = None /\
                          Examples.compile_ex t = None).
  { exists 2%N, 0%nat. repeat split; vm_compute; reflexivity. }
  split; [exact H|].
  destruct (compile_failure_uncaught Examples.compile_ex Examples.A_ex Examples.B_ex H)
    as (s & l & k & t & E & _).
  rewrite E. reflexivity.
Defined.

(** ** The render loop *)

Lemma has_shape_3_3 (m : Render.Matrix) :
  Render.has_shape 3 3 m ->
  exists a b c d e f g h i : Q, m = [[a; b; c]; [d; e; f]; [g; h; i]].
Proof.
  intros [Hl Hr].
  destruct m as [|[|a [|b [|c [|? ?]]]] [|[|d [|e [|f [|? ?]]]] [|[|g [|h [|i [|? ?]]]] [|? ?]]]];
    try discriminate Hl;
    repeat match goal with
    | H : Forall _ (_ :: _) |- _ => apply Forall_cons in H as [? H]
    end; try discriminate.
  by exists a, b, c, d, e, f, g, h, i.
Qed.

Lemma has_shape_4_4 (m : Render.Matrix) :
  Render.has_shape 4 4 m ->
  exists r0 r1 r2 r3 : Q * Q * Q * Q,
    m = (fun r : Q * Q * Q * Q => [r.1.1.1; r.1.1.2; r.1.2; r.2]) <$> [r0; r1; r2; r3].
Proof.
  intros [Hl Hr].
  destruct m as [|r0 [|r1 [|r2 [|r3 [|? ?]]]]]; try discriminate Hl.
  repeat match goal with
    | H : Forall _ (_ :: _) |- _ => apply Forall_cons in H as [? H]
    end.
  destruct r0 as [|a0 [|b0 [|c0 [|d0 [|? ?]]]]]; try discriminate.
  destruct r1 as [|a1 [|b1 [|c1 [|d1 [|? ?]]]]]; try discriminate.
  destruct r2 as [|a2 [|b2 [|c2 [|d2 [|? ?]]]]]; try discriminate.
  destruct r3 as [|a3 [|b3 [|c3 [|d3 [|? ?]]]]]; try discriminate.
  by exists (a0, b0, c0, d0), (a1, b1, c1, d1), (a2, b2, c2, d2), (a3, b3, c3, d3).
Qed.

Section RenderFacts.
Import Eigen Render.
Context {Tree Tape : Type}.

(** C6.  For every 4x4 matrix [M], the 3x3 matrix the block assignments
    build holds the entries (0..1, 0..1) of [M] in place, its entries
    (0..1, 3) in the column 2, its entries (3, 0..1) in the row 2 and
    [M(3, 3)] at (2, 2), whatever [mat2d] held before; and in the 2D path
    this matrix, built from [model.matrix()], is what [render2D] is given. *)
Theorem mat2d_extraction (uninit M : Matrix) :
  has_shape 3 3 uninit -> has_shape 4 4 M ->
  mat2d_of uninit M =
    [ [coeff M 0 0; coeff M 0 1; coeff M 0 3];
      [coeff M 1 0; coeff M 1 1; coeff M 1 3];
      [coeff M 3 0; coeff M 3 1; coeff M 3 3] ] /\
  forall (c : Context) (model : Affine3) (s : Settings) (ui : Ui) (append : bool)
         (kv : N * Scene.Shape Tree Tape),
    render_dimension s = 2%Z -> M = matrix model ->
    head (render_shape Tree Tape c model s ui uninit append kv)
      = Some (render2D c (Scene.tape kv.2) (mat2d_of uninit M)).
Proof.
  intros Hu HM. split.
  - destruct (has_shape_3_3 _ Hu) as (a & b & c & d & e & f & g & h & i & ->).
    destruct (has_shape_4_4 _ HM) as ([[[a0 b0] c0] d0] & [[[a1 b1] c1] d1] &
      [[[a2 b2] c2] d2] & [[[a3 b3] c3] d3] & ->).
    reflexivity.
  - intros c model s ui append kv Hd ->. unfold render_shape.
    rewrite decide_True by done. reflexivity.
Qed.

Lemma append_flags_app (l1 l2 : list (Call Tree Tape)) :
  append_flags (l1 ++ l2) = append_flags l1 ++ append_flags l2.
Proof. apply omap_app. Qed.

Lemma append_flags_render_shape (c : Context) (model : Affine3) (s : Settings) (ui : Ui)
    (uninit : Matrix) (append : bool) (kv : N * Scene.Shape Tree Tape) :
  append_flags (render_shape Tree Tape c model s ui uninit append kv) = [append].
Proof.
  unfold render_shape. rewrite !append_flags_app.
  destruct (decide (render_dimension s = 2%Z));
    destruct (decide (render_mode s = RENDER_MODE_SSAO));
    destruct (decide (render_mode s = RENDER_MODE_SHADED));
    destruct (save_clicked ui kv.1); destruct (frep_is_open ui); reflexivity.
Qed.

Lemma append_flags_render_loop (c : Context) (model : Affine3) (s : Settings) (ui : Ui)
    (uninit : Matrix) (l : list (N * Scene.Shape Tree Tape)) :
  forall append : bool,
    append_flags (render_loop Tree Tape c model s ui uninit append l)
      = match l with [] => [] | _ :: rest => append :: replicate (length rest) true end.
Proof.
  induction l as [|kv l IH]; intros append; [done|].
  cbn [render_loop]. rewrite append_flags_app, append_flags_render_shape, IH.
  destruct l; reflexivity.
Qed.

Lemma first_overwrites_loop (l : list (N * Scene.Shape Tree Tape)) :
  first_overwrites (length l)
    (match l with [] => [] | _ :: rest => false :: replicate (length rest) true end).
Proof.
  destruct l as [|kv rest]; split; try done.
  - cbn. by rewrite length_replicate.
  - intros [|i] a; cbn; [by intros [= <-]|].
    intros H. apply lookup_replicate in H as [-> _]. done.
Qed.

Lemma append_flags_update_context (size : Z) (g : Gpu) :
  append_flags (update_context Tree Tape size g).2 = [].
Proof. unfold update_context. destruct (decide _); reflexivity. Qed.

Lemma length_items {V : Type} (m : gmap N V) : length (Scene.items m) = size m.
Proof. unfold Scene.items. rewrite merge_sort_Permutation. apply length_map_to_list. Qed.

Lemma append_flags_shapes_window (c : Context) (model : Affine3) (s : Settings) (ui : Ui)
    (uninit : Matrix) (m : gmap N (Scene.Shape Tree Tape)) :
  first_overwrites (size m) (append_flags (shapes_window Tree Tape c model s ui uninit m)).
Proof.
  unfold shapes_window. rewrite append_flags_render_loop, <- length_items.
  apply first_overwrites_loop.
Qed.

Lemma append_flags_draw_frame (i : FrameInput Tree) (st : Session Tree Tape) :
  first_overwrites (size (shapes (draw_frame Tree Tape i st).1))
                   (append_flags (draw_frame Tree Tape i st).2).
Proof.
  unfold draw_frame.
  pose proof (append_flags_update_context
    (render_size (settings_window (ui i) (settings st))) (gpu st)) as Hu.
  destruct (update_context _ _ _) as [g resize]. cbn [fst snd shapes] in *.
  rewrite append_flags_app, Hu, app_nil_l. apply append_flags_shapes_window.
Qed.

Section Frames.
Variable compile : Tree -> option Tape.

Lemma append_flags_frame (i : FrameInput Tree) (st st' : Session Tree Tape)
    (log : list (Scene.Event Tree Tape)) (calls : list (Call Tree Tape)) :
  frame Tree Tape compile i st = Scene.Done (st', (log, calls)) ->
  first_overwrites (size (shapes st')) (append_flags calls).
Proof.
  unfold frame. destruct (evaluated i) as [live|].
  - destruct (Scene.synchronize _ _ _ _ _) as [[m l]|[m l]]; [|discriminate].
    pose proof (append_flags_draw_frame i {| gpu := gpu st; settings := settings st; shapes := m |}) as H.
    destruct (draw_frame _ _ _ _) as [st1 calls1]. intros [= <- <- <-]. exact H.
  - pose proof (append_flags_draw_frame i st) as H.
    destruct (draw_frame _ _ _ _) as [st1 calls1]. intros [= <- <- <-]. exact H.
Qed.

(** C5.  In the "Shapes" window the texture copies are one for each
    compiled shape, in the order of the shapes, the first with
    [append = false] and every other with [append = true]; and this holds
    of every frame of a run, whatever the frames before it did. *)
Theorem append_false_then_true :
  (forall (c : Context) (model : Affine3) (s : Settings) (ui : Ui) (uninit : Matrix)
          (m : gmap N (Scene.Shape Tree Tape)),
     first_overwrites (size m) (append_flags (shapes_window Tree Tape c model s ui uninit m))) /\
  (forall (inputs : list (FrameInput Tree)) (st : Session Tree Tape),
     Forall (fun f => first_overwrites (size (shapes f.1)) (append_flags f.2.2))
            (run Tree Tape compile inputs st)).
Proof.
  split; [apply append_flags_shapes_window|].
  induction inputs as [|i inputs IH]; intros st; [constructor|].
  cbn [run]. destruct (frame _ _ _ _ _) as [[st' [log calls]]|?] eqn:E; [|constructor].
  constructor; [|apply IH]. cbn [fst snd]. by eapply append_flags_frame.
Qed.

Lemma render_loop_context (c : Context) (model : Affine3) (s : Settings) (ui : Ui)
    (uninit : Matrix) (l : list (N * Scene.Shape Tree Tape)) :
  forall append : bool,
    Forall (fun call => is_allocation call = false /\
                        forall c', context_of call = Some c' -> c' = c)
           (render_loop Tree Tape c model s ui uninit append l).
Proof.
  induction l as [|kv l IH]; intros append; [constructor|].
  cbn [render_loop]. apply Forall_app. split; [|apply IH].
  unfold render_shape.
  destruct (decide (render_dimension s = 2%Z));
    destruct (decide (render_mode s = RENDER_MODE_SSAO));
    destruct (decide (render_mode s = RENDER_MODE_SHADED));
    destruct (save_clicked ui kv.1); destruct (frep_is_open ui); cbn;
    repeat constructor; cbn; congruence.
Qed.

(** C7.  In a frame whose requested size is not the size of the surface,
    the first calls take a fresh allocation of the requested size and
    give the old one back; the context is then the new one; and every
    render, effect and copy of the frame comes after and is given the
    new context, never the old allocation. *)
Theorem resize_before_render (i : FrameInput Tree) (st : Session Tree Tape) :
  let size := render_size (settings_window (ui i) (settings st)) in
  let old := ctx (gpu st) in
  let new := next_buffers (gpu st) in
  size ≠ image_size_px old -> gpu_ok (gpu st) ->
  resized_first old new size (draw_frame Tree Tape i st).2 /\
  ctx (gpu (draw_frame Tree Tape i st).1) = {| image_size_px := size; buffers := new |} /\
  new ≠ buffers old /\
  gpu_ok (gpu (draw_frame Tree Tape i st).1) /\
  (forall st' log calls,
     frame Tree Tape compile i st = Scene.Done (st', (log, calls)) ->
     resized_first old new size calls /\
     ctx (gpu st') = {| image_size_px := size; buffers := new |}).
Proof.
  intros size old new Hne Hok.
  assert (Hdraw : forall m : gmap N (Scene.Shape Tree Tape),
            let st1 := {| gpu := gpu st; settings := settings st; shapes := m |} in
            resized_first old new size (draw_frame Tree Tape i st1).2 /\
            ctx (gpu (draw_frame Tree Tape i st1).1)
              = {| image_size_px := size; buffers := new |} /\
            gpu_ok (gpu (draw_frame Tree Tape i st1).1)).
  { intros m. cbv zeta. unfold draw_frame, update_context. cbn [gpu settings shapes].
    fold size. rewrite decide_True by exact Hne. cbn.
    split; [|split; [reflexivity|unfold gpu_ok; cbn; lia]].
    eexists. split; [reflexivity|].
    unfold shapes_window. eapply Forall_impl; [apply render_loop_context|].
    intros call [H1 H2]. split; [exact H1|]. intros c Hc. apply H2 in Hc. by subst c. }
  assert (Hst : st = {| gpu := gpu st; settings := settings st; shapes := shapes st |})
    by (by destruct st).
  destruct (Hdraw (shapes st)) as (H1 & H2 & H3). cbv zeta in H1, H2, H3. rewrite <- Hst in *.
  split; [exact H1|]. split; [exact H2|].
  split; [unfold gpu_ok in Hok; subst new old; lia|]. split; [exact H3|].
  intros st' log calls. unfold frame. destruct (evaluated i) as [live|].
  - destruct (Scene.synchronize _ _ _ _ _) as [[m l]|[m l]]; [|discriminate].
    destruct (Hdraw m) as (D1 & D2 & _). cbv zeta in D1, D2.
    destruct (draw_frame Tree Tape i {| gpu := gpu st; settings := settings st; shapes := m |})
      as [st1 calls1].
    intros [= <- <- <-]. by split.
  - destruct (draw_frame Tree Tape i st) as [st1 calls1]. intros [= <- <- <-]. by split.
Qed.

End Frames.

End RenderFacts.

Lemma mat2d_extraction_witness :
  Render.has_shape 3 3 Examples.uninit_ex /\ Render.has_shape 4 4 Examples.M_ex /\
  Render.mat2d_of Examples.uninit_ex Examples.M_ex = [ [1; 2; 4]; [5; 6; 8]; [13; 14; 16] ].
Proof.
  assert (H3 : Render.has_shape 3 3 Examples.uninit_ex)
    by (split; [reflexivity|repeat constructor]).
  assert (H4 : Render.has_shape 4 4 Examples.M_ex)
    by (split; [reflexivity|repeat constructor]).
  split; [exact H3|]. split; [exact H4|].
  exact (proj1 (@mat2d_extraction nat nat Examples.uninit_ex Examples.M_ex H3 H4)).
Defined.

Lemma resize_before_render_witness :
  (512 ≠ 256)%Z /\ Render.gpu_ok Render.initial_gpu /\
  Render.resized_first (Render.ctx Render.initial_gpu) 1%N 512%Z
    (Render.draw_frame nat nat Examples.input_ex Examples.session_ex).2.
Proof.
  assert (H1 : (512 ≠ 256)%Z) by lia.
  assert (H2 : Render.gpu_ok Render.initial_gpu) by (unfold Render.gpu_ok; cbn; lia).
  split; [exact H1|]. split; [exact H2|].
  exact (proj1 (resize_before_render Examples.compile_ok Examples.input_ex Examples.session_ex H1 H2)).
Defined.

(** ** Loading and saving the script *)

Section SaveFacts.
Import Save.

Lemma string_app_cons (c : ascii) (a b : string) : String c a +:+ b = String c (a +:+ b).
Proof. reflexivity. Qed.

Lemma string_app_nil_r (s : string) : s +:+ EmptyString = s.
Proof. induction s as [|c s IH]; [done|]. by rewrite string_app_cons, IH. Qed.

Lemma string_app_assoc (a b c : string) : (a +:+ b) +:+ c = a +:+ (b +:+ c).
Proof. induction a as [|x a IH]; [done|]. by rewrite !string_app_cons, IH. Qed.

(** the text written, line after line *)
Lemma output_text_cons (out : string) (lines : list string) :
  foldl (fun out line => out +:+ line +:+ endl) out lines
    = out +:+ foldr (fun line rest => line +:+ endl +:+ rest) EmptyString lines.
Proof.
  revert out. induction lines as [|l lines IH]; intros out; cbn [foldl foldr].
  - by rewrite string_app_nil_r.
  - rewrite IH. by rewrite !string_app_assoc.
Qed.

Lemma getlines_from_line (l rest : string) :
  no_newline l = true ->
  forall cur : option string,
    getlines_from cur (l +:+ endl +:+ rest)
      = (default EmptyString cur +:+ l) :: getlines_from None rest.
Proof.
  induction l as [|c l IH]; intros Hl cur.
  - change (EmptyString +:+ endl +:+ rest) with (String newline rest).
    cbn [getlines_from]. rewrite Ascii.eqb_refl. by rewrite string_app_nil_r.
  - cbn [no_newline] in Hl. apply andb_prop in Hl as [Hc Hl].
    rewrite string_app_cons. cbn [getlines_from].
    apply negb_true_iff in Hc. rewrite Hc. rewrite (IH Hl). f_equal.
    change (default EmptyString (Some ?s)) with s. by rewrite string_app_assoc.
Qed.

Lemma getlines_output_text (lines : list string) :
  forallb no_newline lines = true -> getlines (output_text lines) = lines.
Proof.
  unfold getlines, output_text. rewrite output_text_cons.
  change (EmptyString +:+ ?s) with s.
  induction lines as [|l lines IH]; [done|]. cbn [forallb foldr].
  intros H. apply andb_prop in H as [Hl H].
  rewrite getlines_from_line by done. cbn. f_equal. by apply IH.
Qed.

Lemma startup_from_file (argv : list string) (files : gmap string string) :
  from_file (startup argv files) = true <->
  exists path content, argv !! 1%nat = Some path /\ files !! path = Some content.
Proof.
  unfold startup. destruct (argv !! 1%nat) as [path|]; [destruct (files !! path) as [c|] eqn:E|]; cbn.
  - split; [eauto|done].
  - split; [done|]. intros (p & c & [= <-] & H). congruence.
  - split; [done|]. intros (p & c & H & _). done.
Qed.

Lemma save_frames_length (argv : list string) (ff : bool) (inputs : list KeyInput) :
  forall w : World, length (save_frames argv ff inputs w).2 = length inputs.
Proof.
  induction inputs as [|i inputs IH]; intros w; [done|]. cbn [save_frames].
  destruct (save_handler argv ff i w) as [w1 e].
  specialize (IH w1). destruct (save_frames argv ff inputs w1) as [w2 es].
  cbn in *. by rewrite IH.
Qed.

(** C9.  When the handler sees the chord with [just_saved] clear and the
    script came from a file, it opens the path the script was loaded
    from.  If the file opens, it gets every line of the editor followed
    by a line break, nothing else changes, and loading that file again
    gives the lines of the editor back; if it does not open, a message
    goes to [std::cerr] and no file changes.  Either way the handler
    returns with [just_saved] set and the run goes on to the next
    frames. *)
Theorem save_writes_script (argv : list string) (files0 : gmap string string)
    (i : KeyInput) (w : World) :
  from_file (startup argv files0) = true ->
  WantCaptureKeyboard i = false -> chord i = true -> just_saved w = false ->
  exists path : string,
    argv !! 1%nat = Some path /\ is_Some (files0 !! path) /\
    just_saved (save_handler argv true i w).1 = true /\
    (output_is_open i = true ->
       (save_handler argv true i w).2 = [Wrote path (output_text (GetTextLines i))] /\
       files (save_handler argv true i w).1 !! path = Some (output_text (GetTextLines i)) /\
       (forall p, p ≠ path -> files (save_handler argv true i w).1 !! p = files w !! p) /\
       (forallb no_newline (GetTextLines i) = true ->
          loaded (startup argv (files (save_handler argv true i w).1)) = Some (GetTextLines i))) /\
    (output_is_open i = false ->
       (save_handler argv true i w).2 = [Failed ("Failed to save to '" +:+ path +:+ "'" +:+ endl)] /\
       files (save_handler argv true i w).1 = files w) /\
    (forall rest : list KeyInput,
       length (save_frames argv true (i :: rest) w).2 = S (length rest)).
Proof.
  intros Hff Hcap Hchord Hjs.
  apply startup_from_file in Hff as (path & content & Hargv & Hfile).
  exists path. split; [done|]. split; [eauto|].
  unfold chord in Hchord. unfold save_handler, argv1.
  rewrite Hcap, Hchord, Hjs, Hargv. cbn [negb andb default].
  split; [by destruct (output_is_open i)|]. split; [|split].
  - intros ->. cbn [fst snd files]. split; [done|]. split; [by rewrite lookup_insert_eq|].
    split; [intros p Hp; by rewrite lookup_insert_ne|].
    intros Hnl. unfold startup. rewrite Hargv, lookup_insert_eq. cbn.
    by rewrite getlines_output_text.
  - intros ->. done.
  - intros rest. apply (save_frames_length argv true (i :: rest) w).
Qed.

(** what a frame does to [just_saved] and when it opens the file *)
Lemma save_handler_cases (argv : list string) (ff : bool) (i : KeyInput) (w : World) :
  ((save_handler argv ff i w).2 = [] \/
   (just_saved w = false /\ ff = true /\ chord i = true /\ WantCaptureKeyboard i = false /\
    length (save_handler argv ff i w).2 = 1%nat /\
    just_saved (save_handler argv ff i w).1 = true)) /\
  (just_saved w = true -> sees_release i = false ->
   just_saved (save_handler argv ff i w).1 = true) /\
  (ff = false -> (save_handler argv ff i w).1 = w \/ 
                 (save_handler argv ff i w).1 = {| files := files w; just_saved := false |}).
Proof.
  unfold save_handler, sees_release, chord.
  destruct (WantCaptureKeyboard i), (KeySuper i), (KeysDown_S i), (just_saved w) eqn:E, ff,
    (output_is_open i); cbn; repeat split; try (intros; done); auto;
    try (right; repeat split; done).
Qed.

Lemma writes_le_attempts (e : list Effect) : (writes e <= attempts e)%nat.
Proof.
  unfold writes, written, attempts. induction e as [|[p c|m] e IH]; cbn; lia.
Qed.

Lemma held_after_save (argv : list string) (ff : bool) (inputs : list KeyInput) :
  forall w : World,
    just_saved w = true ->
    Forall (fun i => sees_release i = false) inputs ->
    total_attempts (save_frames argv ff inputs w).2 = 0%nat.
Proof.
  induction inputs as [|i inputs IH]; intros w Hjs Hall; [done|].
  apply Forall_cons in Hall as [Hi Hall]. cbn [save_frames].
  destruct (save_handler_cases argv ff i w) as ([He|(Hf & _)] & Hkeep & _); [|congruence].
  specialize (Hkeep Hjs Hi).
  destruct (save_handler argv ff i w) as [w1 e]. cbn [fst snd] in *. subst e.
  specialize (IH w1 Hkeep Hall).
  destruct (save_frames argv ff inputs w1) as [w2 es]. exact IH.
Qed.

Lemma chord_no_release (i : KeyInput) : chord i = true -> sees_release i = false.
Proof. unfold sees_release. intros ->. by rewrite andb_false_r. Qed.

Lemma held_chord_once (argv : list string) (ff : bool) (inputs : list KeyInput) :
  forall w : World,
    Forall (fun i => chord i = true) inputs ->
    (total_attempts (save_frames argv ff inputs w).2 <= 1)%nat.
Proof.
  induction inputs as [|i inputs IH]; intros w Hall; [cbn; lia|].
  apply Forall_cons in Hall as [Hi Hall]. cbn [save_frames].
  destruct (save_handler_cases argv ff i w) as ([He|(_ & _ & _ & _ & Hlen & Hjs)] & _ & _).
  - destruct (save_handler argv ff i w) as [w1 e]. cbn [fst snd] in *. subst e.
    specialize (IH w1 Hall). destruct (save_frames argv ff inputs w1) as [w2 es]. exact IH.
  - destruct (save_handler argv ff i w) as [w1 e]. cbn [fst snd] in *.
    pose proof (held_after_save argv ff inputs w1 Hjs) as H0.
    destruct (save_frames argv ff inputs w1) as [w2 es]. cbn [snd] in *.
    unfold total_attempts, attempts in *. cbn [concat]. rewrite length_app, Hlen, H0; [lia|].
    eapply Forall_impl; [exact Hall|]. intros j. apply chord_no_release.
Qed.

Lemma release_before_save (argv : list string) (ff : bool) (inputs : list KeyInput) :
  forall (w : World) (b : nat) (eb : list Effect),
    just_saved w = true ->
    (save_frames argv ff inputs w).2 !! b = Some eb -> eb ≠ [] ->
    exists (k : nat) (i : KeyInput),
      (k < b)%nat /\ inputs !! k = Some i /\ sees_release i = true.
Proof.
  induction inputs as [|i inputs IH]; intros w b eb Hjs Hb Hne; [done|].
  cbn [save_frames] in Hb.
  destruct (save_handler_cases argv ff i w) as ([He|(Hf & _)] & Hkeep & _); [|congruence].
  destruct (save_handler argv ff i w) as [w1 e]. cbn [fst snd] in *. subst e.
  destruct (save_frames argv ff inputs w1) as [w2 es] eqn:Es. cbn [snd] in Hb.
  destruct b as [|b]; [cbn in Hb; congruence|]. cbn in Hb.
  destruct (sees_release i) eqn:Er.
  - exists 0%nat, i. split; [lia|]. done.
  - destruct (IH w1 b eb (Hkeep Hjs eq_refl)) as (k & j & Hk & Hj & Hr); [by rewrite Es|done|].
    exists (S k), j. split; [lia|]. done.
Qed.

Lemma release_between_saves (argv : list string) (ff : bool) (inputs : list KeyInput) :
  forall (w : World) (a b : nat) (ea eb : list Effect),
    (a < b)%nat ->
    (save_frames argv ff inputs w).2 !! a = Some ea -> ea ≠ [] ->
    (save_frames argv ff inputs w).2 !! b = Some eb -> eb ≠ [] ->
    exists (k : nat) (i : KeyInput),
      (a < k < b)%nat /\ inputs !! k = Some i /\ sees_release i = true.
Proof.
  induction inputs as [|i inputs IH]; intros w a b ea eb Hab Ha Hea Hb Heb; [done|].
  cbn [save_frames] in Ha, Hb.
  pose proof (save_handler_cases argv ff i w) as (Hcase & _ & _).
  pose proof (release_before_save argv ff inputs (save_handler argv ff i w).1) as Hrel.
  pose proof (IH (save_handler argv ff i w).1) as IH'.
  destruct (save_handler argv ff i w) as [w1 e]. cbn [fst snd] in *.
  destruct (save_frames argv ff inputs w1) as [w2 es] eqn:Es. cbn [snd] in *.
  destruct b as [|b]; [lia|]. cbn in Hb.
  destruct a as [|a]; cbn in Ha.
  - injection Ha as ->. destruct Hcase as [He|(_ & _ & _ & _ & _ & Hjs)]; [done|].
    destruct (Hrel b eb Hjs Hb Heb) as (k & j & Hk & Hj & Hr).
    exists (S k), j. split; [lia|]. done.
  - destruct (IH' a b ea eb) as (k & j & Hk & Hj & Hr); [lia|done..|].
    exists (S k), j. split; [lia|]. done.
Qed.

Lemma not_from_file_silent (argv : list string) (inputs : list KeyInput) :
  forall w : World,
    total_attempts (save_frames argv false inputs w).2 = 0%nat /\
    files (save_frames argv false inputs w).1 = files w.
Proof.
  induction inputs as [|i inputs IH]; intros w; [done|]. cbn [save_frames].
  destruct (save_handler_cases argv false i w) as ([He|(_ & Hf & _)] & _ & Hw); [|done].
  specialize (Hw eq_refl).
  destruct (save_handler argv false i w) as [w1 e]. cbn [fst snd] in *. subst e.
  destruct (IH w1) as [IH1 IH2].
  destruct (save_frames argv false inputs w1) as [w2 es]. cbn [fst snd] in *.
  split; [exact IH1|]. rewrite IH2. by destruct Hw as [->| ->].
Qed.

(** C10.  While the chord stays down the file is opened, hence written,
    at most once; between two frames that open it there is a frame whose
    handler sees the chord released; and a session whose script did not
    come from a file, which is when no path given on the command line
    could be opened, never opens it and leaves the files as they were. *)
Theorem save_once_per_press (argv : list string) :
  (forall (ff : bool) (inputs : list KeyInput) (w : World),
     Forall (fun i => chord i = true) inputs ->
     (total_writes (save_frames argv ff inputs w).2
        <= total_attempts (save_frames argv ff inputs w).2 <= 1)%nat) /\
  (forall (ff : bool) (inputs : list KeyInput) (w : World) (a b : nat) (ea eb : list Effect),
     (a < b)%nat ->
     (save_frames argv ff inputs w).2 !! a = Some ea -> ea ≠ [] ->
     (save_frames argv ff inputs w).2 !! b = Some eb -> eb ≠ [] ->
     exists (k : nat) (i : KeyInput),
       (a < k < b)%nat /\ inputs !! k = Some i /\ sees_release i = true) /\
  (forall (files0 : gmap string string) (inputs : list KeyInput),
     from_file (startup argv files0) = false ->
     total_attempts (session argv files0 inputs).2 = 0%nat /\
     files (session argv files0 inputs).1 = files0) /\
  (forall files0 : gmap string string,
     from_file (startup argv files0) = true <->
     exists path content, argv !! 1%nat = Some path /\ files0 !! path = Some content).
Proof.
  split; [|split; [|split]].
  - intros ff inputs w H. split; [apply writes_le_attempts|by apply held_chord_once].
  - intros ff inputs w. apply release_between_saves.
  - intros files0 inputs Hff. unfold session. rewrite Hff. apply not_from_file_silent.
  - intros files0. apply startup_from_file.
Qed.

End SaveFacts.

Lemma save_writes_script_witness :
  Save.from_file (Save.startup Examples.argv_ex Examples.files_ex) = true /\
  Save.WantCaptureKeyboard (Examples.key_down true) = false /\
  Save.chord (Examples.key_down true) = true /\
  exists path : string,
    Examples.argv_ex !! 1%nat = Some path /\
    (Save.save_handler Examples.argv_ex true (Examples.key_down true)
       {| Save.files := Examples.files_ex; Save.just_saved := false |}).2
      = [Save.Wrote path ("sphere" +:+ Save.endl +:+ "box" +:+ Save.endl)%string].
Proof.
  assert (H1 : Save.from_file (Save.startup Examples.argv_ex Examples.files_ex) = true)
    by (vm_compute; reflexivity).
  assert (H2 : Save.WantCaptureKeyboard (Examples.key_down true) = false) by reflexivity.
  assert (H3 : Save.chord (Examples.key_down true) = true) by reflexivity.
  split; [exact H1|]. split; [exact H2|]. split; [exact H3|].
  destruct (save_writes_script Examples.argv_ex Examples.files_ex (Examples.key_down true)
              {| Save.files := Examples.files_ex; Save.just_saved := false |}
              H1 H2 H3 eq_refl) as (path & Hp & _ & _ & Hopen & _).
  exists path. split; [exact Hp|]. exact (proj1 (Hopen eq_refl)).
Defined.

Lemma save_once_per_press_witness :
  Forall (fun i => Save.chord i = true) [Examples.key_down true; Examples.key_down true] /\
  (Save.total_attempts
     (Save.save_frames Examples.argv_ex true [Examples.key_down true; Examples.key_down true]
        {| Save.files := Examples.files_ex; Save.just_saved := false |}).2 <= 1)%nat.
Proof.
  assert (H : Forall (fun i => Save.chord i = true)
                [Examples.key_down true; Examples.key_down true])
    by (repeat constructor).
  split; [exact H|].
  exact (proj2 (proj1 (save_once_per_press Examples.argv_ex) true _
                  {| Save.files := Examples.files_ex; Save.just_saved := false |} H)).
Defined.

(** * More properties *)

(** ** The camera *)

Section CameraMore.
Import Eigen View Overlay.
Variables (cosf sinf : Q -> Q) (powf : Q -> Q -> Q).

Ltac unfold_cam :=
  cbv [zoom pan rotate_view update_mats worldOf worldOf_spec mouse_of AngleAxis
       toRotationMatrix Identity Identity3 translate scale scalev rotate compose
       apply mulv mmul rowmul dot col0 col1 col2 asDiagonal vadd vsub veq
       UnitX UnitZ linear translation row0 row1 row2 vx vy vz
       view_center view_scale view_pitch view_yaw model view
       x y DisplaySize MousePos MouseWheel GetMouseDragDelta0 GetMouseDragDelta1
       image_min image_max max_pixels].





(** truncation of a rational that is not negative rounds down *)
Lemma trunc_nonneg (q : Q) : 0 <= q -> 0 <= inject_Z (trunc q) /\ inject_Z (trunc q) <= q.
Proof.
  destruct q as [a b]. unfold trunc, Qle, inject_Z. simpl. intros Ha.
  assert (Ha' : (0 <= a)%Z) by lia.
  pose proof (Z.quot_rem' a (Z.pos b)) as E.
  pose proof (Z.rem_bound_pos a (Z.pos b) Ha' ltac:(lia)).
  pose proof (Z.quot_pos a (Z.pos b) Ha' ltac:(lia)). nia.
Qed.

Lemma fmod_nonneg (a b : Q) : 0 < b -> 0 <= a -> 0 <= fmod a b.
Proof.
  intros Hb Ha. unfold fmod.
  assert (Hq : 0 <= a / b).
  { apply Qle_shift_div_l; [exact Hb|]. lra. }
  destruct (trunc_nonneg (a / b) Hq) as [H1 H2].
  set (n := inject_Z (trunc (a / b))) in *.
  assert (E : a == (a / b) * b) by (field; lra).
  set (q := a / b) in *. rewrite E at 1. nra.
Qed.

Lemma trunc_small (q : Q) : - (1) < q -> q < 1 -> trunc q = 0%Z.
Proof.
  destruct q as [a b]. unfold trunc, Qlt. simpl. intros H1 H2.
  destruct (Z.le_gt_cases 0 a) as [Ha|Ha].
  - apply Z.quot_small. lia.
  - rewrite <- (Z.opp_involutive a), Z.quot_opp_l by lia.
    rewrite Z.quot_small by lia. reflexivity.
Qed.

Lemma fmod_small (a b : Q) : - b < a -> a < b -> fmod a b == a.
Proof.
  intros H1 H2. unfold fmod.
  assert (Hb : 0 < b) by lra.
  rewrite trunc_small.
  - change (inject_Z 0) with 0. ring.
  - apply Qlt_shift_div_l; [exact Hb|]. lra.
  - apply Qlt_shift_div_r; [exact Hb|]. lra.
Qed.

Lemma rotate_view_left (io : ImGuiIO) (cam : Camera) :
  x (GetMouseDragDelta1 io) <= 0 -> yaw_wrapped cam ->
  yaw_wrapped (rotate_view cosf sinf io cam).
Proof.
  intros Hd [H0 _]. unfold yaw_wrapped, rotate_view, update_mats. cbn [view_yaw].
  split.
  - apply fmod_nonneg; [reflexivity|]. 
    assert (x (GetMouseDragDelta1 io) / 100 <= 0).
    { apply Qle_shift_div_r; [reflexivity|]. lra. }
    lra.
  - apply (fmod_bound). reflexivity.
Qed.

(** X2.  As long as no drag of the second button goes to the right, the
    yaw stays in the half-open interval from 0 to [2 * M_PI]. *)
Theorem yaw_wrapped_leftward : forall (ios : list ImGuiIO) (io0 : ImGuiIO),
  Forall (fun io => x (GetMouseDragDelta1 io) <= 0) ios ->
  let cam := run_frames cosf sinf powf ios (initial_camera cosf sinf io0) in
  0 <= view_yaw cam /\ view_yaw cam < 2 * M_PI.
Proof.
  intros ios io0 Hall. cbv zeta.
  change (yaw_wrapped (run_frames cosf sinf powf ios (initial_camera cosf sinf io0))).
  assert (H0 : yaw_wrapped (initial_camera cosf sinf io0))
    by (split; vm_compute; [discriminate|reflexivity]).
  revert H0. generalize (initial_camera cosf sinf io0) as cam.
  unfold run_frames. induction Hall as [|io ios Hio Hall IH]; intros cam H; [exact H|].
  cbn [fold_left]. apply IH. unfold handle_mouse.
  destruct (WantCaptureMouse io); [exact H|].
  assert (H1 : yaw_wrapped
            (if IsMouseDragging0 io then pan cosf sinf io (update_mats cosf sinf io cam)
             else update_mats cosf sinf io cam)).
  { destruct (IsMouseDragging0 io); exact H. }
  set (c1 := if IsMouseDragging0 io then _ else _) in *.
  assert (H2 : yaw_wrapped (if IsMouseDragging1 io then rotate_view cosf sinf io c1 else c1)).
  { destruct (IsMouseDragging1 io); [by apply rotate_view_left | exact H1]. }
  set (c2 := if IsMouseDragging1 io then _ else _) in *.
  destruct (Qeq_bool (MouseWheel io) 0); exact H2.
Qed.

(** X3.  A drag of the second button that does not move leaves the view as
    it is, when the yaw and the pitch are in their ranges: [fmod] and the
    two clamps do nothing there. *)
Theorem rotate_still : forall (io : ImGuiIO) (cam : Camera),
  yaw_in_range cam -> pitch_in_range cam ->
  x (GetMouseDragDelta1 io) == 0 -> y (GetMouseDragDelta1 io) == 0 ->
  view_yaw (rotate_view cosf sinf io cam) == view_yaw cam /\
  view_pitch (rotate_view cosf sinf io cam) == view_pitch cam /\
  view_center (rotate_view cosf sinf io cam) = view_center cam /\
  view_scale (rotate_view cosf sinf io cam) = view_scale cam.
Proof.
  intros io cam [Y1 Y2] [P1 P2] Hx Hy. unfold rotate_view, update_mats.
  cbn [view_yaw view_pitch view_center view_scale].
  assert (Ex : x (GetMouseDragDelta1 io) / 100 == 0) by (rewrite Hx; reflexivity).
  assert (Ey : y (GetMouseDragDelta1 io) / 100 == 0) by (rewrite Hy; reflexivity).
  unfold pitch_in_range in *.
  split; [|split; [|split; reflexivity]].
  - rewrite fmod_small; lra.
  - unfold fmin, fmax.
    set (p := view_pitch cam - y (GetMouseDragDelta1 io) / 100).
    assert (Ep : p == view_pitch cam) by (unfold p; lra).
    destruct (Q.max_spec (- M_PI / 2) p) as [[H1 E1]|[H1 E1]];
    destruct (Q.min_spec (M_PI / 2) (Qmax (- M_PI / 2) p)) as [[H2 E2]|[H2 E2]];
    rewrite E2; try rewrite E1; try rewrite E1 in H2; lra.
Qed.


(** X5.  The two corners given to [AddImage] are the screen points that the
    view matrix sends to (-1, -1) and (1, 1): the texture covers the
    square of side 2 around the origin, provided the window is not
    empty. *)
Theorem image_square : forall (io : ImGuiIO) (cam : Camera),
  ~ max_pixels io == 0 ->
  let v := view (update_mats cosf sinf io cam) in
  veq (apply v (vec3 (x (image_min io)) (y (image_min io)) 0)) (vec3 (- (1)) (- (1)) 0) /\
  veq (apply v (vec3 (x (image_max io)) (y (image_max io)) 0)) (vec3 1 1 0).
Proof.
  intros io cam. unfold max_pixels.
  destruct io as [[w h] [mx my] wheel cap d0 [dx0 dy0] d1 [dx1 dy1]].
  destruct cam as [[cx cy cz] s p yw m v].
  unfold_cam. intros Hm. generalize dependent (fmax w h). intros m' Hm.
  repeat split; field; exact Hm.
Qed.


Lemma inverse_apply (t : Affine3) (p : Vector3) :
  ~ det (linear t) == 0 -> veq (apply t (apply (inverse t) p)) p.
Proof.
  destruct t as [[[a b c] [d e f] [g h i]] [tx ty tz]], p as [px py pz].
  cbv [det linear inverse minverse apply mulv dot vadd vsub veq translation
       row0 row1 row2 vx vy vz].
  intros Hd. repeat split; field; exact Hd.
Qed.

Lemma det_model_view (io : ImGuiIO) (cam : Camera) :
  let c := update_mats cosf sinf io cam in
  let sv := 2 / max_pixels io in
  det (linear (compose (model c) (view c)))
    == - (view_scale cam * view_scale cam * view_scale cam * (sv * sv)
          * (cosf (view_yaw cam) * cosf (view_yaw cam) + sinf (view_yaw cam) * sinf (view_yaw cam))
          * (cosf (view_pitch cam) * cosf (view_pitch cam)
             + sinf (view_pitch cam) * sinf (view_pitch cam))).
Proof.
  destruct io as [[w h] [mx my] wheel cap d0 [dx0 dy0] d1 [dx1 dy1]].
  destruct cam as [[cx cy cz] s p yw m v].
  cbv zeta. unfold max_pixels. unfold_cam. cbv [det]. generalize (2 / fmax w h). intros sv.
  ring.
Qed.

(** X7.  The four points of the axes, taken through
    [(model * view).inverse()], lie over the origin and the three unit
    points: [model * view] takes each back to its world point.  This needs
    a scale and a window that are not zero, and a cosine and a sine whose
    squares add up to 1. *)
Theorem axes_over_world_points : forall (io : ImGuiIO) (cam : Camera),
  ~ view_scale cam == 0 -> ~ max_pixels io == 0 ->
  cosf (view_yaw cam) * cosf (view_yaw cam) + sinf (view_yaw cam) * sinf (view_yaw cam) == 1 ->
  cosf (view_pitch cam) * cosf (view_pitch cam) + sinf (view_pitch cam) * sinf (view_pitch cam) == 1 ->
  let c := update_mats cosf sinf io cam in
  Forall2 (fun screen world => veq (worldOf c screen) world)
          (axes_points c) [vec3 0 0 0; vec3 1 0 0; vec3 0 1 0; vec3 0 0 1].
Proof.
  intros io cam Hs Hm Hy Hp c.
  assert (Hd : ~ det (linear (compose (model c) (view c))) == 0).
  { intros E. pose proof (det_model_view io cam) as D. cbv zeta in D. fold c in D.
    pose proof (Qeq_trans _ _ _ (Qeq_sym _ _ D) E) as E'. clear D E.
    assert (Hsv : ~ 2 / max_pixels io == 0).
    { intros E. apply Hm.
      assert (E2 : max_pixels io * (2 / max_pixels io) == 2) by (field; exact Hm).
      rewrite E in E2. ring_simplify in E2. discriminate E2. }
    revert E' Hy Hp Hs Hsv.
    generalize (cosf (view_yaw cam) * cosf (view_yaw cam)
                + sinf (view_yaw cam) * sinf (view_yaw cam)).
    generalize (cosf (view_pitch cam) * cosf (view_pitch cam)
                + sinf (view_pitch cam) * sinf (view_pitch cam)).
    generalize (view_scale cam). generalize (2 / max_pixels io).
    intros V S P Y E' Hy Hp Hs Hsv.
    assert (E3 : S * S * S * (V * V) == 0).
    { rewrite Hy, Hp in E'. lra. }
    apply Qmult_integral in E3 as [E3|E3].
    - apply Qmult_integral in E3 as [E3|E3]; [|contradiction].
      apply Qmult_integral in E3 as [E3|E3]; contradiction.
    - apply Qmult_integral in E3 as [E3|E3]; contradiction. }
  unfold axes_points, worldOf. cbn [List.map].
  do 4 (constructor; [apply inverse_apply, Hd|]). constructor.
Qed.

(** X8.  Two scrolls at the same cursor leave the scale and the centre that
    one scroll leaves whose factor is the product of theirs. *)
Theorem zoom_twice : forall (io1 io2 io12 : ImGuiIO) (cam : Camera),
  DisplaySize io2 = DisplaySize io1 -> MousePos io2 = MousePos io1 ->
  DisplaySize io12 = DisplaySize io1 -> MousePos io12 = MousePos io1 ->
  powf (101 # 100) (MouseWheel io12)
    == powf (101 # 100) (MouseWheel io1) * powf (101 # 100) (MouseWheel io2) ->
  let c0 := update_mats cosf sinf io1 cam in
  let twice := zoom cosf sinf powf io2 (zoom cosf sinf powf io1 c0) in
  let once := zoom cosf sinf powf io12 c0 in
  view_scale twice == view_scale once /\ veq (view_center twice) (view_center once).
Proof.
  intros io1 io2 io12 cam.
  destruct io1 as [[w h] [mx my] wheel cap d0 [dx0 dy0] d1 [dx1 dy1]].
  destruct io2 as [[w2 h2] [mx2 my2] wheel2 cap2 d02 [dx02 dy02] d12 [dx12 dy12]].
  destruct io12 as [[w3 h3] [mx3 my3] wheel3 cap3 d03 [dx03 dy03] d13 [dx13 dy13]].
  cbn [DisplaySize MousePos MouseWheel]. intros [= -> ->] [= -> ->] [= -> ->] [= -> ->].
  destruct cam as [[cx cy cz] s p yw m v].
  intros Hk. unfold_cam. revert Hk.
  generalize (powf (101 # 100) wheel) (powf (101 # 100) wheel2) (powf (101 # 100) wheel3).
  intros k1 k2 k12 Hk. generalize (2 / fmax w h). intros sv. unfold Qdiv.
  split; [setoid_rewrite Hk; ring|]. repeat split; setoid_rewrite Hk; ring.
Qed.

Lemma mat2d_of_entries (a b c d e f g h i : Q)
    (m00 m01 m02 m03 m10 m11 m12 m13 m20 m21 m22 m23 m30 m31 m32 m33 : Q) :
  Render.mat2d_of [ [a; b; c]; [d; e; f]; [g; h; i] ]
    [ [m00; m01; m02; m03]; [m10; m11; m12; m13];
      [m20; m21; m22; m23]; [m30; m31; m32; m33] ]
  = [ [m00; m01; m03]; [m10; m11; m13]; [m30; m31; m33] ].
Proof. reflexivity. Qed.

(** X9.  In the 2D path the matrix built for [render2D] from the model
    matrix has the bottom row (0, 0, 1), the x and y of the view centre as
    its last column, and the scale times the rotation by the yaw in its
    upper left block, the second column shrunk by the cosine of the
    pitch. *)
Theorem mat2d_of_model : forall (io : ImGuiIO) (cam : Camera) (uninit : Render.Matrix),
  Render.has_shape 3 3 uninit ->
  let s := view_scale cam in
  let cy := cosf (view_yaw cam) in
  let sy := sinf (view_yaw cam) in
  let cp := cosf (view_pitch cam) in
  Forall2 (Forall2 Qeq)
    (Render.mat2d_of uninit (Render.matrix (model (update_mats cosf sinf io cam))))
    [ [s * cy; - (s * sy * cp); vx (view_center cam)];
      [s * sy; s * cy * cp; vy (view_center cam)];
      [0; 0; 1] ].
Proof.
  intros io cam uninit Hu.
  destruct (has_shape_3_3 _ Hu) as (a & b & c & d & e & f & g & h & i & ->).
  destruct cam as [[cx cy cz] s p yw m v]. cbv zeta.
  unfold Render.matrix.
  rewrite mat2d_of_entries.
  cbv [update_mats model view_center view_scale view_yaw view_pitch vx vy vz
       AngleAxis toRotationMatrix Identity Identity3 translate scale rotate
       mulv mmul rowmul dot col0 col1 col2 asDiagonal vadd UnitX UnitZ
       linear translation row0 row1 row2 fst snd].
  repeat (constructor; [repeat (constructor; [ring|]); constructor|]). constructor.
Qed.

End CameraMore.

Lemma yaw_wrapped_leftward_witness :
  Forall (fun io => View.x (View.GetMouseDragDelta1 io) <= 0)
         [MoreExamples.io_left; MoreExamples.io_left] /\
  0 <= View.view_yaw
         (View.run_frames Examples.cosf0 Examples.sinf0 Examples.powf_whole
            [MoreExamples.io_left; MoreExamples.io_left]
            (View.initial_camera Examples.cosf0 Examples.sinf0 MoreExamples.io_left)).
Proof.
  assert (H : Forall (fun io => View.x (View.GetMouseDragDelta1 io) <= 0)
                     [MoreExamples.io_left; MoreExamples.io_left]).
  { repeat (apply List.Forall_cons; [vm_compute; discriminate|]). apply List.Forall_nil. }
  split; [exact H|].
  exact (proj1 (yaw_wrapped_leftward Examples.cosf0 Examples.sinf0 Examples.powf_whole
                  _ MoreExamples.io_left H)).
Defined.

Lemma rotate_still_witness :
  let cam := View.initial_camera Examples.cosf0 Examples.sinf0 MoreExamples.io_still in
  View.yaw_in_range cam /\ Overlay.pitch_in_range cam /\
  View.view_yaw (View.rotate_view Examples.cosf0 Examples.sinf0 MoreExamples.io_still cam)
    == View.view_yaw cam.
Proof.
  cbv zeta.
  assert (Hy : View.yaw_in_range
                 (View.initial_camera Examples.cosf0 Examples.sinf0 MoreExamples.io_still))
    by (split; reflexivity).
  assert (Hp : Overlay.pitch_in_range
                 (View.initial_camera Examples.cosf0 Examples.sinf0 MoreExamples.io_still))
    by (split; vm_compute; discriminate).
  split; [exact Hy|]. split; [exact Hp|].
  refine (proj1 (rotate_still Examples.cosf0 Examples.sinf0 MoreExamples.io_still _ Hy Hp _ _));
    reflexivity.
Defined.

Lemma image_square_witness :
  ~ Overlay.max_pixels Examples.io_pan == 0 /\
  Eigen.veq
    (Eigen.apply
       (View.view (View.update_mats Examples.cosf0 Examples.sinf0 Examples.io_pan
                     View.initial_view))
       (Eigen.vec3 (View.x (Overlay.image_max Examples.io_pan))
                   (View.y (Overlay.image_max Examples.io_pan)) 0))
    (Eigen.vec3 1 1 0).
Proof.
  assert (H : ~ Overlay.max_pixels Examples.io_pan == 0).
  { intros E. vm_compute in E. discriminate E. }
  split; [exact H|].
  exact (proj2 (image_square Examples.cosf0 Examples.sinf0 Examples.io_pan View.initial_view H)).
Defined.


Lemma axes_over_world_points_witness :
  ~ View.view_scale View.initial_view == 0 /\
  ~ Overlay.max_pixels Examples.io_pan == 0 /\
  Examples.cosf0 0 * Examples.cosf0 0 + Examples.sinf0 0 * Examples.sinf0 0 == 1 /\
  Forall2 (fun screen world =>
             Eigen.veq
               (View.worldOf
                  (View.update_mats Examples.cosf0 Examples.sinf0 Examples.io_pan
                     View.initial_view) screen) world)
          (Overlay.axes_points
             (View.update_mats Examples.cosf0 Examples.sinf0 Examples.io_pan View.initial_view))
          [Eigen.vec3 0 0 0; Eigen.vec3 1 0 0; Eigen.vec3 0 1 0; Eigen.vec3 0 0 1].
Proof.
  assert (H1 : ~ View.view_scale View.initial_view == 0).
  { intros E. vm_compute in E. discriminate E. }
  assert (H2 : ~ Overlay.max_pixels Examples.io_pan == 0).
  { intros E. vm_compute in E. discriminate E. }
  assert (H3 : Examples.cosf0 0 * Examples.cosf0 0 + Examples.sinf0 0 * Examples.sinf0 0 == 1)
    by reflexivity.
  split; [exact H1|]. split; [exact H2|]. split; [exact H3|].
  exact (axes_over_world_points Examples.cosf0 Examples.sinf0 Examples.io_pan
           View.initial_view H1 H2 H3 H3).
Defined.

Lemma zoom_twice_witness :
  Examples.powf_whole (101 # 100) 3
    == Examples.powf_whole (101 # 100) 1 * Examples.powf_whole (101 # 100) 2 /\
  let c0 := View.update_mats Examples.cosf0 Examples.sinf0 (MoreExamples.io_wheel 1)
              View.initial_view in
  View.view_scale
    (View.zoom Examples.cosf0 Examples.sinf0 Examples.powf_whole (MoreExamples.io_wheel 2)
       (View.zoom Examples.cosf0 Examples.sinf0 Examples.powf_whole (MoreExamples.io_wheel 1) c0))
  == View.view_scale
       (View.zoom Examples.cosf0 Examples.sinf0 Examples.powf_whole (MoreExamples.io_wheel 3) c0).
Proof.
  assert (H : Examples.powf_whole (101 # 100) 3
              == Examples.powf_whole (101 # 100) 1 * Examples.powf_whole (101 # 100) 2)
    by (vm_compute; reflexivity).
  split; [exact H|].
  exact (proj1 (zoom_twice Examples.cosf0 Examples.sinf0 Examples.powf_whole
                  (MoreExamples.io_wheel 1) (MoreExamples.io_wheel 2) (MoreExamples.io_wheel 3)
                  View.initial_view eq_refl eq_refl eq_refl eq_refl H)).
Defined.

Lemma mat2d_of_model_witness :
  Render.has_shape 3 3 Examples.uninit_ex /\
  Forall2 (Forall2 Qeq)
    (Render.mat2d_of Examples.uninit_ex
       (Render.matrix
          (View.model (View.update_mats Examples.cosf0 Examples.sinf0 Examples.io_pan
                         View.initial_view))))
    [ [2 * 1; - (2 * 0 * 1); 0]; [2 * 0; 2 * 1 * 1; 0]; [0; 0; 1] ].
Proof.
  assert (H : Render.has_shape 3 3 Examples.uninit_ex)
    by (split; [reflexivity|repeat constructor]).
  split; [exact H|].
  exact (mat2d_of_model Examples.cosf0 Examples.sinf0 Examples.io_pan View.initial_view
           Examples.uninit_ex H).
Defined.

(** ** The compiled shapes *)

#[global] Instance key_le_total {V : Type} : Total (@Scene.key_le V).
Proof. intros a b. unfold Scene.key_le. lia. Qed.

#[global] Instance key_le_trans {V : Type} : Transitive (@Scene.key_le V).
Proof. intros a b c. unfold Scene.key_le. lia. Qed.

Section SceneMoreFacts.
Import Scene SceneMore.
Context {Tree Tape : Type}.
Variable compile : Tree -> option Tape.

Lemma StronglySorted_items {V : Type} (m : gmap N V) : StronglySorted key_le (items m).
Proof. unfold items. apply StronglySorted_merge_sort; apply _. Qed.

Lemma increasing_filter_keys {V : Type} (P : N * V -> Prop) `{forall x, Decision (P x)}
    (l : list (N * V)) :
  StronglySorted key_le l -> NoDup l.*1 -> StronglySorted N.lt (filter P l).*1.
Proof.
  induction 1 as [|kv l Hs IH Hall]; [constructor|].
  rewrite fmap_cons, NoDup_cons. intros [Hk Hnd].
  rewrite filter_cons. destruct (decide (P kv)); [|by apply IH].
  rewrite fmap_cons. constructor; [by apply IH|].
  apply Forall_fmap, Forall_forall. intros x Hx.
  apply list_elem_of_filter in Hx as [_ Hx].
  rewrite Forall_forall in Hall. specialize (Hall x Hx). unfold key_le in Hall. cbn.
  assert (kv.1 ≠ x.1).
  { intros E. apply Hk. rewrite E. apply list_elem_of_fmap. by exists x. }
  lia.
Qed.

Lemma filter_none {A : Type} (P : A -> Prop) `{forall x, Decision (P x)} (l : list A) :
  (forall x, x ∈ l -> ¬ P x) -> filter P l = [].
Proof.
  induction l as [|a l IH]; [done|]. intros Hall.
  rewrite filter_cons_False by (apply Hall; by left).
  apply IH. intros x Hx. apply Hall. by right.
Qed.

(** X10.  When the compiled shapes have exactly the identities of the
    script, the reconciliation does nothing: it ends normally with the
    same map and makes no call, whatever the trees are and whether or not
    they compile. *)
Theorem synchronize_again (B : gmap N Tree) (m : gmap N (Shape Tree Tape)) :
  dom m = dom B -> synchronize Tree Tape compile B m = Done (m, []).
Proof.
  intros Hd.
  assert (Hkeys : forall k, is_Some (m !! k) <-> is_Some (B !! k)).
  { intros k. rewrite <- !elem_of_dom. by rewrite Hd. }
  unfold synchronize.
  destruct (erase_stale_spec B m) as [Hlog Hm].
  destruct (erase_stale Tree Tape B m []) as [m1 log1]. cbn [fst snd] in Hlog, Hm.
  assert (Hst : stale B (items m) = []).
  { apply filter_none. intros [k s] Hin Hn. apply Hn. cbn.
    apply Hkeys. apply elem_of_items in Hin. eauto. }
  rewrite Hst in Hlog. cbn in Hlog. subst log1.
  assert (E1 : m1 = m).
  { apply map_eq. intros k. rewrite Hm. destruct (B !! k) eqn:EB; [done|].
    destruct (m !! k) eqn:Em; [|done].
    assert (is_Some (B !! k)) as [? ?] by (apply Hkeys; eauto). congruence. }
  subst m1.
  destruct (create_new_done compile (items B) m [] (NoDup_items B))
    as (m' & Hrun & Hold & _ & Hnone).
  { intros k t Hin Hk. apply elem_of_items in Hin.
    assert (is_Some (m !! k)) as [? ?] by (apply Hkeys; eauto). congruence. }
  assert (Hfr : fresh m (items B) = []).
  { apply filter_none. intros [k t] Hin Hn. apply Hn. cbn.
    apply Hkeys. apply elem_of_items in Hin. eauto. }
  rewrite Hfr in Hrun. cbn in Hrun. rewrite Hrun. do 2 f_equal.
  apply map_eq. intros k. destruct (m !! k) as [s|] eqn:Em; [by apply Hold|].
  apply Hnone; [done|]. rewrite elem_of_items_keys. intros Hs.
  apply Hkeys in Hs as [? ?]. congruence.
Qed.



(** X12.  When every new tree compiles, all the releases of a
    reconciliation come before all its compilations, and both go through
    the identities in increasing order. *)
Theorem synchronize_order (A : gmap N (Shape Tree Tape)) (B : gmap N Tree) :
  (forall k t, B !! k = Some t -> A !! k = None -> is_Some (compile t)) ->
  exists (shapes : gmap N (Shape Tree Tape)) (log l1 l2 : list (Event Tree Tape)),
    synchronize Tree Tape compile B A = Done (shapes, log) /\
    log = l1 ++ l2 /\ compiled l1 = [] /\ released l2 = [] /\
    StronglySorted N.lt (released log) /\ StronglySorted N.lt (compiled log).
Proof.
  intros Hc. unfold synchronize.
  destruct (erase_stale_spec B A) as [Hlog Hm].
  destruct (erase_stale Tree Tape B A []) as [m1 log1]. cbn [fst snd] in Hlog, Hm.
  destruct (create_new_done compile (items B) m1 log1 (NoDup_items B)) as (m' & Hrun & _).
  { intros k t Hin Hk. apply elem_of_items in Hin. apply (Hc k t Hin).
    rewrite Hm, Hin in Hk. done. }
  exists m', (log1 ++ ((fun kv => Compile kv.1 kv.2) <$> fresh m1 (items B))), log1,
    ((fun kv => Compile kv.1 kv.2) <$> fresh m1 (items B)).
  split; [exact Hrun|]. split; [done|]. subst log1.
  rewrite released_app, compiled_app, released_Release, compiled_Release,
    released_Compile, compiled_Compile, app_nil_r, app_nil_l.
  split; [done|]. split; [done|].
  split; apply increasing_filter_keys; auto using StronglySorted_items, NoDup_items.
Qed.

End SceneMoreFacts.

Lemma synchronize_again_witness :
  dom Examples.A_ex = dom MoreExamples.B_same /\
  Scene.synchronize nat nat Examples.compile_ex MoreExamples.B_same Examples.A_ex
    = Scene.Done (Examples.A_ex, []).
Proof.
  assert (H : dom Examples.A_ex = dom MoreExamples.B_same).
  { unfold Examples.A_ex, MoreExamples.B_same. by rewrite !dom_insert_L, !dom_empty_L. }
  split; [exact H|].
  exact (synchronize_again Examples.compile_ex MoreExamples.B_same Examples.A_ex H).
Defined.


Lemma synchronize_order_witness :
  (forall k t, Examples.B_ex !! k = Some t -> Examples.A_ex !! k = None ->
               is_Some (Examples.compile_ok t)) /\
  exists shapes log,
    Scene.synchronize nat nat Examples.compile_ok Examples.B_ex Examples.A_ex
      = Scene.Done (shapes, log) /\
    StronglySorted N.lt (Scene.compiled log).
Proof.
  assert (H : forall k t, Examples.B_ex !! k = Some t -> Examples.A_ex !! k = None ->
                          is_Some (Examples.compile_ok t)).
  { intros k t _ _. unfold Examples.compile_ok. eauto. }
  split; [exact H|].
  destruct (synchronize_order Examples.compile_ok Examples.A_ex Examples.B_ex H)
    as (s & l & l1 & l2 & H1 & _ & _ & _ & _ & H2).
  exists s, l. split; assumption.
Defined.

(** ** The render loop *)

Section RenderMoreFacts.
Import Eigen Render RenderMore.
Context {Tree Tape : Type}.
Variable compile : Tree -> option Tape.

Lemma count_calls_app (f : Call Tree Tape -> bool) (l1 l2 : list (Call Tree Tape)) :
  count_calls f (l1 ++ l2) = (count_calls f l1 + count_calls f l2)%nat.
Proof. unfold count_calls. by rewrite List.filter_app, length_app. Qed.

Lemma count_render_loop (c : Context) (model : Affine3) (s : Settings) (ui : Ui)
    (uninit : Matrix) (l : list (N * Scene.Shape Tree Tape)) :
  forall append : bool,
    let calls := render_loop Tree Tape c model s ui uninit append l in
    count_calls is_render calls = length l /\
    count_calls is_copy calls = length l /\
    count_calls is_ssao calls
      = (if decide (render_mode s = RENDER_MODE_SSAO) then length l else 0%nat) /\
    count_calls is_shaded calls
      = (if decide (render_mode s = RENDER_MODE_SHADED) then length l else 0%nat).
Proof.
  induction l as [|kv l IH]; intros append.
  - cbn. by repeat destruct (decide _).
  - cbv zeta. cbn [render_loop]. rewrite !count_calls_app.
    destruct (IH true) as (H1 & H2 & H3 & H4). rewrite H1, H2, H3, H4.
    unfold render_shape. clear.
    destruct (decide (render_dimension s = 2%Z));
      destruct (decide (render_mode s = RENDER_MODE_SSAO)) as [E|E];
      destruct (decide (render_mode s = RENDER_MODE_SHADED)) as [E'|E'];
      try congruence;
      destruct (save_clicked ui kv.1); destruct (frep_is_open ui); cbn; done.
Qed.

(** X13.  The "Shapes" window makes one render call and one texture copy for
    each compiled shape; one [drawSSAO] for each in the mode SSAO and
    none otherwise; one [drawShaded] for each in the mode SHADED and none
    otherwise.  In the mode SHADED it therefore never calls [drawSSAO]. *)
Theorem one_render_per_shape (c : Context) (model : Affine3) (s : Settings) (ui : Ui)
    (uninit : Matrix) (m : gmap N (Scene.Shape Tree Tape)) :
  let calls := shapes_window Tree Tape c model s ui uninit m in
  count_calls is_render calls = size m /\
  count_calls is_copy calls = size m /\
  count_calls is_ssao calls
    = (if decide (render_mode s = RENDER_MODE_SSAO) then size m else 0%nat) /\
  count_calls is_shaded calls
    = (if decide (render_mode s = RENDER_MODE_SHADED) then size m else 0%nat).
Proof.
  cbv zeta. unfold shapes_window. rewrite <- (length_items m). apply count_render_loop.
Qed.

Lemma render_loop_plane (c : Context) (model : Affine3) (s : Settings) (ui : Ui)
    (uninit : Matrix) (l : list (N * Scene.Shape Tree Tape)) :
  render_dimension s = 2%Z -> render_mode s = RENDER_MODE_2D ->
  forall append : bool,
    Forall plane_call (render_loop Tree Tape c model s ui uninit append l).
Proof.
  intros Hd Hm. induction l as [|kv l IH]; intros append; [constructor|].
  cbn [render_loop]. apply Forall_app. split; [|apply IH].
  unfold render_shape. rewrite decide_True by done. rewrite Hm.
  destruct (save_clicked ui kv.1); destruct (frep_is_open ui); cbn;
    repeat constructor.
Qed.

(** X14.  A frame whose dimension is 2 has the mode [RENDER_MODE_2D]; it
    makes no 3D render and no effect call, and its copies are in that
    mode. *)
Theorem plane_frame (i : FrameInput Tree) (st : Session Tree Tape) :
  render_dimension (settings_window (ui i) (settings st)) = 2%Z ->
  render_mode (settings (draw_frame Tree Tape i st).1) = RENDER_MODE_2D /\
  Forall plane_call (draw_frame Tree Tape i st).2.
Proof.
  intros Hd.
  assert (Hm : render_mode (settings_window (ui i) (settings st)) = RENDER_MODE_2D).
  { unfold settings_window in *. cbn [render_dimension render_mode] in *.
    rewrite decide_False; [done|]. rewrite Hd. done. }
  unfold draw_frame. destruct (update_context _ _ _ _) as [g resize] eqn:E.
  cbn [fst snd settings]. split; [exact Hm|].
  apply Forall_app. split.
  - unfold update_context in E. destruct (decide _); injection E as <- <-; repeat constructor.
  - by apply render_loop_plane.
Qed.

Lemma render_loop_solid (c : Context) (model : Affine3) (s : Settings) (ui : Ui)
    (uninit : Matrix) (l : list (N * Scene.Shape Tree Tape)) :
  render_dimension s = 3%Z -> render_mode s = RENDER_MODE_2D ->
  forall append : bool,
    Forall solid_call_plane_copy (render_loop Tree Tape c model s ui uninit append l).
Proof.
  intros Hd Hm. induction l as [|kv l IH]; intros append; [constructor|].
  cbn [render_loop]. apply Forall_app. split; [|apply IH].
  unfold render_shape. rewrite decide_False by (rewrite Hd; done). rewrite Hm.
  destruct (save_clicked ui kv.1); destruct (frep_is_open ui); cbn;
    repeat constructor.
Qed.

(** X15.  After a frame in 2D, a frame in which the user picks the
    dimension 3 and no mode renders in 3D while the mode is still
    [RENDER_MODE_2D]: no 2D render and no effect call is made, and the
    copies are in the mode [RENDER_MODE_2D]. *)
Theorem back_to_3d_keeps_plane_mode (i : FrameInput Tree) (st : Session Tree Tape) :
  render_mode (settings st) = RENDER_MODE_2D ->
  dimension_clicked (ui i) = Some 3%Z -> mode_clicked (ui i) = None ->
  render_dimension (settings (draw_frame Tree Tape i st).1) = 3%Z /\
  render_mode (settings (draw_frame Tree Tape i st).1) = RENDER_MODE_2D /\
  Forall solid_call_plane_copy (draw_frame Tree Tape i st).2.
Proof.
  intros Hm Hd Hc.
  assert (H3 : render_dimension (settings_window (ui i) (settings st)) = 3%Z).
  { unfold settings_window. cbn [render_dimension]. by rewrite Hd. }
  assert (H2 : render_mode (settings_window (ui i) (settings st)) = RENDER_MODE_2D).
  { unfold settings_window. cbn [render_mode]. rewrite Hd, Hc. cbn.
    by rewrite decide_True. }
  unfold draw_frame. destruct (update_context _ _ _ _) as [g resize] eqn:E.
  cbn [fst snd settings]. split; [exact H3|]. split; [exact H2|].
  apply Forall_app. split.
  - unfold update_context in E. destruct (decide _); injection E as <- <-; repeat constructor.
  - by apply render_loop_solid.
Qed.

Lemma surface_safe_draws (freed : list N) (c : Context) (l rest : list (Call Tree Tape)) :
  buffers c ∉ freed ->
  Forall (fun call => is_allocation call = false /\
                      forall c', context_of call = Some c' -> c' = c) l ->
  surface_safe freed rest ->
  surface_safe freed (l ++ rest).
Proof.
  intros Hc Hl Hrest. induction Hl as [|call l [Ha Hx] _ IH]; [exact Hrest|].
  cbn [app surface_safe]. destruct call; try discriminate Ha;
    (split; [|exact IH]); cbn; try exact I;
    rewrite (Hx _ eq_refl); exact Hc.
Qed.

Lemma surface_safe_draw_frame (i : FrameInput Tree) (st : Session Tree Tape)
    (freed : list N) (rest : list (Call Tree Tape)) :
  gpu_ok (gpu st) ->
  Forall (fun b => (b < buffers (ctx (gpu st)))%N) freed ->
  (forall freed', Forall (fun b => (b < buffers (ctx (gpu (draw_frame Tree Tape i st).1)))%N) freed' ->
                  surface_safe freed' rest) ->
  gpu_ok (gpu (draw_frame Tree Tape i st).1) /\
  surface_safe freed ((draw_frame Tree Tape i st).2 ++ rest).
Proof.
  intros Hok Hfreed Hrest. unfold draw_frame, update_context in *.
  assert (Hlt : forall b (fr : list N) (bound : N),
            Forall (fun b => (b < bound)%N) fr -> (bound <= b)%N -> b ∉ fr).
  { intros b fr bound Hf Hb Hin. rewrite Forall_forall in Hf. specialize (Hf _ Hin). lia. }
  destruct (decide _) as [Hne|He]; cbn [fst snd gpu ctx buffers Context_new] in *.
  - split; [unfold gpu_ok; cbn; lia|].
    unfold gpu_ok in Hok. rewrite <- !app_assoc. cbn [app surface_safe context_of].
    split; [exact I|]. split; [by eapply Hlt|].
    assert (Hfreed' : Forall (fun b => (b < next_buffers (gpu st))%N)
                             (buffers (ctx (gpu st)) :: freed)).
    { constructor; [exact Hok|]. eapply Forall_impl; [exact Hfreed|]. cbn. intros b ?. lia. }
    eapply surface_safe_draws; [|apply render_loop_context|].
    + eapply Hlt; [exact Hfreed'|]. cbn. lia.
    + apply Hrest. exact Hfreed'.
  - split; [exact Hok|]. cbn [app].
    eapply surface_safe_draws; [|apply render_loop_context|].
    + eapply Hlt; [exact Hfreed|]. lia.
    + apply Hrest. exact Hfreed.
Qed.

Lemma surface_safe_run (inputs : list (FrameInput Tree)) :
  forall (st : Session Tree Tape) (freed : list N),
    gpu_ok (gpu st) ->
    Forall (fun b => (b < buffers (ctx (gpu st)))%N) freed ->
    surface_safe freed (calls_of (run Tree Tape compile inputs st)).
Proof.
  induction inputs as [|i inputs IH]; intros st freed Hok Hfreed; [exact I|].
  cbn [run]. unfold frame.
  assert (Hstep : forall m : gmap N (Scene.Shape Tree Tape),
            let st1 := {| gpu := gpu st; settings := settings st; shapes := m |} in
            surface_safe freed
              ((draw_frame Tree Tape i st1).2
               ++ calls_of (run Tree Tape compile inputs (draw_frame Tree Tape i st1).1))).
  { intros m st1.
    assert (Hok' : gpu_ok (gpu (draw_frame Tree Tape i st1).1)).
    { eapply (surface_safe_draw_frame i st1 [] []); [exact Hok|constructor|].
      intros; exact I. }
    eapply (surface_safe_draw_frame i st1); [exact Hok|exact Hfreed|].
    intros freed' Hf. by apply IH. }
  destruct (evaluated i) as [live|].
  - destruct (Scene.synchronize _ _ _ _ _) as [[m l]|[m l]]; [|exact I].
    specialize (Hstep m). cbv zeta in Hstep.
    destruct (draw_frame Tree Tape i {| gpu := gpu st; settings := settings st; shapes := m |})
      as [st1 calls1].
    exact Hstep.
  - specialize (Hstep (shapes st)). cbv zeta in Hstep.
    replace {| gpu := gpu st; settings := settings st; shapes := shapes st |} with st in Hstep
      by (by destruct st).
    destruct (draw_frame Tree Tape i st) as [st1 calls1]. exact Hstep.
Qed.

(** X16.  Over any run from a session whose context holds an allocation
    that was made, no render, effect or copy is given a context whose
    allocation was given back before, and no allocation is given back
    twice. *)
Theorem no_use_after_release (inputs : list (FrameInput Tree)) (st : Session Tree Tape) :
  gpu_ok (gpu st) ->
  surface_safe [] (calls_of (run Tree Tape compile inputs st)).
Proof. intros Hok. apply surface_safe_run; [exact Hok|constructor]. Qed.

(** X17.  At the end of every frame of a run the size of the context is
    the render size of the settings. *)
Theorem surface_has_requested_size (inputs : list (FrameInput Tree)) :
  forall st : Session Tree Tape,
    Forall (fun f => image_size_px (ctx (gpu f.1)) = render_size (settings f.1))
           (run Tree Tape compile inputs st).
Proof.
  assert (Hdraw : forall (i : FrameInput Tree) (st : Session Tree Tape),
            image_size_px (ctx (gpu (draw_frame Tree Tape i st).1))
              = render_size (settings (draw_frame Tree Tape i st).1)).
  { intros i st. unfold draw_frame, update_context.
    destruct (decide _) as [Hne|He]; cbn; [done|].
    destruct (decide (render_size (settings_window (ui i) (settings st))
                      = image_size_px (ctx (gpu st)))); [done|contradiction]. }
  induction inputs as [|i inputs IH]; intros st; [constructor|].
  cbn [run]. unfold frame. destruct (evaluated i) as [live|].
  - destruct (Scene.synchronize _ _ _ _ _) as [[m l]|[m l]]; [|constructor].
    pose proof (Hdraw i {| gpu := gpu st; settings := settings st; shapes := m |}) as H.
    destruct (draw_frame Tree Tape i {| gpu := gpu st; settings := settings st; shapes := m |})
      as [st1 calls1].
    constructor; [exact H|apply IH].
  - pose proof (Hdraw i st) as H.
    destruct (draw_frame Tree Tape i st) as [st1 calls1].
    constructor; [exact H|apply IH].
Qed.

(** X18.  A frame whose requested size is the size of the context keeps the
    context and makes no allocation and no release. *)
Theorem same_size_no_allocation (i : FrameInput Tree) (st : Session Tree Tape) :
  render_size (settings_window (ui i) (settings st)) = image_size_px (ctx (gpu st)) ->
  gpu (draw_frame Tree Tape i st).1 = gpu st /\
  Forall (fun c => is_allocation c = false) (draw_frame Tree Tape i st).2.
Proof.
  intros He. unfold draw_frame, update_context.
  rewrite decide_False by (intros H; apply H; exact He). cbn.
  split; [done|]. eapply Forall_impl; [apply render_loop_context|].
  by intros c [H _].
Qed.

End RenderMoreFacts.

Lemma plane_frame_witness :
  Render.render_dimension
    (Render.settings_window MoreExamples.ui_plane Render.initial_settings) = 2%Z /\
  Forall RenderMore.plane_call
    (Render.draw_frame nat nat (MoreExamples.input_of MoreExamples.ui_plane)
       Examples.session_ex).2.
Proof.
  split; [reflexivity|].
  exact (proj2 (plane_frame (MoreExamples.input_of MoreExamples.ui_plane)
                  Examples.session_ex eq_refl)).
Defined.

Lemma back_to_3d_keeps_plane_mode_witness :
  Render.render_mode (Render.settings MoreExamples.session_plane) = Render.RENDER_MODE_2D /\
  Render.dimension_clicked MoreExamples.ui_solid = Some 3%Z /\
  Render.mode_clicked MoreExamples.ui_solid = None /\
  Forall RenderMore.solid_call_plane_copy
    (Render.draw_frame nat nat (MoreExamples.input_of MoreExamples.ui_solid)
       MoreExamples.session_plane).2.
Proof.
  split; [reflexivity|]. split; [reflexivity|]. split; [reflexivity|].
  exact (proj2 (proj2 (back_to_3d_keeps_plane_mode
                         (MoreExamples.input_of MoreExamples.ui_solid)
                         MoreExamples.session_plane eq_refl eq_refl eq_refl))).
Defined.

Lemma no_use_after_release_witness :
  Render.gpu_ok Render.initial_gpu /\
  RenderMore.surface_safe []
    (RenderMore.calls_of
       (Render.run nat nat Examples.compile_ok
          [Examples.input_ex; MoreExamples.input_of MoreExamples.ui_plane]
          Examples.session_ex)).
Proof.
  assert (H : Render.gpu_ok Render.initial_gpu) by (unfold Render.gpu_ok; cbn; lia).
  split; [exact H|].
  exact (no_use_after_release Examples.compile_ok
           [Examples.input_ex; MoreExamples.input_of MoreExamples.ui_plane]
           Examples.session_ex H).
Defined.

Lemma same_size_no_allocation_witness :
  Render.render_size (Render.settings_window MoreExamples.ui_idle Render.initial_settings)
    = Render.image_size_px (Render.ctx Render.initial_gpu) /\
  Render.gpu (Render.draw_frame nat nat (MoreExamples.input_of MoreExamples.ui_idle)
                Examples.session_ex).1 = Render.initial_gpu.
Proof.
  split; [reflexivity|].
  exact (proj1 (same_size_no_allocation (MoreExamples.input_of MoreExamples.ui_idle)
                  Examples.session_ex eq_refl)).
Defined.

(** ** The script file *)

Section SaveMoreFacts.
Import Save SaveMore.

Lemma no_newline_app (a b : string) :
  no_newline (a +:+ b) = no_newline a && no_newline b.
Proof.
  induction a as [|c a IH]; [done|]. rewrite string_app_cons. cbn [no_newline].
  rewrite IH. by rewrite andb_assoc.
Qed.

Lemma getlines_from_no_newline (s : string) :
  forall cur : option string,
    no_newline (default EmptyString cur) = true ->
    forallb no_newline (getlines_from cur s) = true.
Proof.
  induction s as [|c s IH]; intros cur Hcur.
  - destruct cur; cbn in *; [by rewrite Hcur|done].
  - cbn [getlines_from]. destruct (Ascii.eqb c newline) eqn:E.
    + cbn [forallb]. rewrite Hcur. cbn. by apply IH.
    + apply IH. change (default EmptyString (Some ?x)) with x.
      rewrite no_newline_app, Hcur. cbn. by rewrite E.
Qed.

Lemma getlines_from_text (s : string) :
  forall cur : option string,
    foldr (fun line rest => line +:+ endl +:+ rest) EmptyString (getlines_from cur s)
      = default EmptyString cur +:+ s
        +:+ (if open_line (bool_decide (is_Some cur)) s then endl else EmptyString).
Proof.
  induction s as [|c s IH]; intros cur.
  - destruct cur as [l|]; cbn [getlines_from foldr open_line default].
    + rewrite bool_decide_true by eauto. reflexivity.
    + rewrite bool_decide_false by (by intros [? ?]). reflexivity.
  - cbn [getlines_from open_line]. destruct (Ascii.eqb c newline) eqn:E.
    + apply Ascii.eqb_eq in E as ->. cbn [foldr negb]. rewrite IH.
      change (default EmptyString None) with EmptyString.
      rewrite bool_decide_false by (by intros [? ?]).
      reflexivity.
    + cbn [negb]. rewrite IH. change (default EmptyString (Some ?x)) with x.
      rewrite bool_decide_true by eauto.
      rewrite string_app_assoc. reflexivity.
Qed.

(** X19.  The lines the start of the program reads from a file hold no
    line break; writing them back gives the text of the file, with a line
    break added at the end when the file ended inside a line; and reading
    what was written gives the same lines. *)
Theorem load_save_load (content : string) :
  forallb no_newline (getlines content) = true /\
  output_text (getlines content)
    = content +:+ (if open_line false content then endl else EmptyString) /\
  getlines (output_text (getlines content)) = getlines content.
Proof.
  assert (H1 : forallb no_newline (getlines content) = true)
    by (by apply getlines_from_no_newline).
  split; [exact H1|]. split; [|by apply getlines_output_text].
  unfold output_text. rewrite output_text_cons. unfold getlines.
  rewrite getlines_from_text. rewrite bool_decide_false by (by intros [? ?]).
  reflexivity.
Qed.

(** X20.  As long as no frame sees the chord released, the file is opened
    at most once: neither the frames in which the keyboard is captured
    nor a failed attempt let a second one through. *)
Theorem one_save_until_release (argv : list string) (ff : bool) (inputs : list KeyInput) :
  forall w : World,
    Forall (fun i => sees_release i = false) inputs ->
    (total_attempts (save_frames argv ff inputs w).2 <= 1)%nat.
Proof.
  induction inputs as [|i inputs IH]; intros w Hall; [cbn; lia|].
  apply Forall_cons in Hall as [Hi Hall]. cbn [save_frames].
  destruct (save_handler_cases argv ff i w) as ([He|(_ & _ & _ & _ & Hlen & Hjs)] & _ & _).
  - destruct (save_handler argv ff i w) as [w1 e]. cbn [fst snd] in *. subst e.
    specialize (IH w1 Hall). destruct (save_frames argv ff inputs w1) as [w2 es]. exact IH.
  - destruct (save_handler argv ff i w) as [w1 e]. cbn [fst snd] in *.
    pose proof (held_after_save argv ff inputs w1 Hjs Hall) as H0.
    destruct (save_frames argv ff inputs w1) as [w2 es]. cbn [snd] in *.
    unfold total_attempts, attempts in *. cbn [concat]. rewrite length_app, Hlen, H0. lia.
Qed.

Lemma save_frames_app (argv : list string) (ff : bool) (l1 l2 : list KeyInput) :
  forall w : World,
    (save_frames argv ff (l1 ++ l2) w).2
      = (save_frames argv ff l1 w).2
        ++ (save_frames argv ff l2 (save_frames argv ff l1 w).1).2.
Proof.
  induction l1 as [|i l1 IH]; intros w; [done|]. cbn [app save_frames].
  destruct (save_handler argv ff i w) as [w1 e]. specialize (IH w1).
  destruct (save_frames argv ff (l1 ++ l2) w1) as [w2 es].
  destruct (save_frames argv ff l1 w1) as [w3 es3]. cbn [fst snd] in *.
  by rewrite IH.
Qed.

(** X21.  When the script came from a file, a frame that sees the chord
    released followed by one that sees it down opens the file in that
    second frame, whatever happened before: it writes the lines if the
    file opens and reports the failure if not. *)
Theorem press_after_release_saves (argv : list string) (pre : list KeyInput)
    (r p : KeyInput) (w : World) :
  sees_release r = true -> chord p = true -> WantCaptureKeyboard p = false ->
  last (save_frames argv true (pre ++ [r; p]) w).2
    = Some (if output_is_open p
            then [Wrote (argv1 argv) (output_text (GetTextLines p))]
            else [Failed ("Failed to save to '" +:+ argv1 argv +:+ "'" +:+ endl)]).
Proof.
  intros Hr Hp Hcap. rewrite save_frames_app.
  set (w0 := (save_frames argv true pre w).1).
  rewrite last_app. cbn [save_frames].
  unfold sees_release, chord in *.
  apply andb_prop in Hr as [Hr1 Hr2]. apply negb_true_iff in Hr1, Hr2.
  unfold save_handler at 1. rewrite Hr1, Hr2.
  unfold save_handler. rewrite Hcap, Hp. cbn.
  destruct (output_is_open p); reflexivity.
Qed.

End SaveMoreFacts.

Lemma one_save_until_release_witness :
  Forall (fun i => Save.sees_release i = false)
         [Examples.key_down false; MoreExamples.key_captured; Examples.key_down true] /\
  (Save.total_attempts
     (Save.save_frames Examples.argv_ex true
        [Examples.key_down false; MoreExamples.key_captured; Examples.key_down true]
        {| Save.files := Examples.files_ex; Save.just_saved := false |}).2 <= 1)%nat.
Proof.
  assert (H : Forall (fun i => Save.sees_release i = false)
                [Examples.key_down false; MoreExamples.key_captured; Examples.key_down true])
    by (repeat constructor).
  split; [exact H|].
  exact (one_save_until_release Examples.argv_ex true _
           {| Save.files := Examples.files_ex; Save.just_saved := false |} H).
Defined.

Lemma press_after_release_saves_witness :
  Save.sees_release MoreExamples.key_up = true /\
  Save.chord (Examples.key_down true) = true /\
  last (Save.save_frames Examples.argv_ex true
          ([Examples.key_down true] ++ [MoreExamples.key_up; Examples.key_down true])
          {| Save.files := Examples.files_ex; Save.just_saved := false |}).2
    = Some [Save.Wrote (Save.argv1 Examples.argv_ex)
                       (Save.output_text (Save.GetTextLines (Examples.key_down true)))].
Proof.
  split; [reflexivity|]. split; [reflexivity|].
  exact (press_after_release_saves Examples.argv_ex [Examples.key_down true]
           MoreExamples.key_up (Examples.key_down true)
           {| Save.files := Examples.files_ex; Save.just_saved := false |}
           eq_refl eq_refl eq_refl).
Defined.

(** ** The benchmarks *)

Section BenchmarkFacts.
Import Benchmark.

Lemma copy_row_spec (x n : nat) :
  forall (a : nat) (i : Z),
    (0 <= i < 2 ^ 32)%Z -> (i + Z.of_nat n <= 2 ^ 32)%Z ->
    copy_row x (seq a n) i
      = ((fun j => (x, (a + j)%nat, (i + Z.of_nat j)%Z)) <$> seq 0 n,
         ((i + Z.of_nat n) mod 2 ^ 32)%Z).
Proof.
  induction n as [|n IH]; intros a i H0 Hi.
  - cbn. rewrite Z.add_0_r, Z.mod_small by lia. done.
  - cbn [seq copy_row]. rewrite Nat2Z.inj_succ in Hi.
    destruct (decide (i + 1 = 2 ^ 32)%Z) as [E|E].
    + assert (n = 0%nat) as -> by lia. cbn.
      unfold uint32_incr. rewrite Nat.add_0_r, Z.add_0_r. done.
    + assert (Hu : uint32_incr i = (i + 1)%Z).
      { unfold uint32_incr. apply Z.mod_small. lia. }
      rewrite Hu, IH by lia. change (seq 0 (S n)) with (0%nat :: seq 1 n).
      rewrite <- (fmap_S_seq 0 n), fmap_cons, <- list_fmap_compose. f_equal.
      * f_equal; [by rewrite Nat.add_0_r, Z.add_0_r|].
        apply list_fmap_ext. intros _ j _. cbn. f_equal; [f_equal|]; lia.
      * f_equal. lia.
Qed.

Lemma bind_ext_in {A B : Type} (f g : A -> list B) (l : list A) :
  (forall x, x ∈ l -> f x = g x) -> l ≫= f = l ≫= g.
Proof.
  induction l as [|a l IH]; [done|]. intros H. cbn [mbind list_bind].
  rewrite (H a) by (by left). f_equal. apply IH. intros x Hx. apply H. by right.
Qed.

Lemma copy_rows_spec (size n : nat) :
  forall (a : nat) (i : Z),
    (0 <= i < 2 ^ 32)%Z -> (i + Z.of_nat (n * size) <= 2 ^ 32)%Z ->
    copy_rows (seq a n) size i
      = x ← seq a n; (fun y => (x, y, (i + Z.of_nat ((x - a) * size + y))%Z)) <$> seq 0 size.
Proof.
  induction n as [|n IH]; intros a i H0 Hi; [done|].
  cbn [seq copy_rows]. rewrite copy_row_spec by lia.
  cbn [mbind list_bind]. f_equal.
  - apply list_fmap_ext. intros _ y _. cbn. f_equal. f_equal. f_equal. lia.
  - destruct n as [|n]; [reflexivity|].
    destruct (decide (size = 0%nat)) as [->|Hs].
    + clear. generalize (seq (S a) (S n)).
      intros l. generalize ((i + Z.of_nat 0) mod 2 ^ 32)%Z. intros z.
      induction l as [|x l IHl] in z |- *; [done|]. cbn. apply IHl.
    + rewrite Z.mod_small by lia. rewrite IH by lia.
      apply bind_ext_in. intros x Hx. apply list_fmap_ext. intros _ y _.
      cbn. f_equal.
      apply elem_of_seq in Hx.
      replace (x - a)%nat with (S (x - S a)) by lia. cbn [Nat.mul]. lia.
Qed.

Lemma row_major_indices (size n : nat) :
  forall a : nat,
    (x ← seq a n; (fun y => (x * size + y)%nat) <$> seq 0 size) = seq (a * size) (n * size).
Proof.
  induction n as [|n IH]; intros a; [done|].
  cbn [seq mbind list_bind]. rewrite IH. cbn [Nat.mul].
  rewrite seq_app. f_equal.
  - etrans; [apply (fmap_add_seq (a * size) 0 size)|]. by rewrite Nat.add_0_r.
  - f_equal. cbn. lia.
Qed.

Lemma indices_of_reads (size : nat) (xs ys : list nat) :
  (fun p : nat * nat * Z => p.2)
    <$> (x ← xs; (fun y => (x, y, Z.of_nat (x * size + y))) <$> ys)
  = Z.of_nat <$> (x ← xs; (fun y => (x * size + y)%nat) <$> ys).
Proof.
  induction xs as [|x xs IH]; [done|].
  cbn [mbind list_bind]. rewrite !fmap_app, IH. f_equal.
  rewrite <- !list_fmap_compose. done.
Qed.

(** X22.  The loops that copy a result into the heightmap give the pixel
    (x, y) the buffer entry [x * size + y]: the entries below
    [size * size] are read once each, in order, and none beyond, as long
    as [size * size] does not exceed the range of the 32-bit index. *)
Theorem copy_pixels_row_major (size : nat) :
  (Z.of_nat (size * size) <= 2 ^ 32)%Z ->
  copy_pixels size
    = (x ← seq 0 size; (fun y => (x, y, Z.of_nat (x * size + y))) <$> seq 0 size) /\
  (fun p => p.2) <$> copy_pixels size = Z.of_nat <$> seq 0 (size * size).
Proof.
  intros Hs.
  assert (E : copy_pixels size
    = (x ← seq 0 size; (fun y => (x, y, Z.of_nat (x * size + y))) <$> seq 0 size)).
  { unfold copy_pixels. rewrite copy_rows_spec by lia.
    apply bind_ext_in. intros x _. apply list_fmap_ext. intros _ y _. cbn.
    f_equal. rewrite Nat.sub_0_r. lia. }
  split; [exact E|]. rewrite E.
  pose proof (row_major_indices size size 0) as R. change (0 * size)%nat with 0%nat in R.
  rewrite <- R. apply indices_of_reads.
Qed.

Section Table3DFacts.
Variable mean_of : Z -> Q.

(** X23.  The 3D table renders a prefix of its sizes: every size before the
    last rendered one took no more than 750 on average, and if a size is
    left out then the last rendered one took more. *)
Theorem table_stops_after_slow_size (sizes : list Z) :
  exists rest : list Z,
    sizes = rendered_sizes mean_of sizes ++ rest /\
    Forall (fun s => (mean_of s <= 750)%Q) (removelast (rendered_sizes mean_of sizes)) /\
    (rest = [] \/
     exists s, last (rendered_sizes mean_of sizes) = Some s /\ (750 < mean_of s)%Q).
Proof.
  induction sizes as [|s sizes (rest & IH1 & IH2 & IH3)].
  - exists []. repeat split; [constructor|by left].
  - cbn [rendered_sizes]. destruct (Qlt_le_dec 750 (mean_of s)) as [Hslow|Hfast].
    + exists sizes. split; [done|]. split; [constructor|]. right. by exists s.
    + exists rest. split; [cbn; by rewrite <- IH1|].
      destruct (rendered_sizes mean_of sizes) as [|s' l] eqn:E.
      * split; [constructor|]. left. destruct IH3 as [->|(x & Hx & _)]; [done|].
        discriminate Hx.
      * split; [cbn [removelast]; by constructor|].
        destruct IH3 as [->|(x & Hx & Hslow)]; [by left|]. right. exists x.
        split; [|done]. by rewrite last_cons, Hx.
Qed.

End Table3DFacts.

End BenchmarkFacts.

Lemma copy_pixels_row_major_witness :
  (Z.of_nat (2 * 2) <= 2 ^ 32)%Z /\
  Benchmark.copy_pixels 2
    = [ (0, 0, 0%Z); (0, 1, 1%Z); (1, 0, 2%Z); (1, 1, 3%Z) ]%nat.
Proof.
  assert (H : (Z.of_nat (2 * 2) <= 2 ^ 32)%Z) by (vm_compute; discriminate).
  split; [exact H|].
  exact (proj1 (copy_pixels_row_major 2 H)).
Defined.
